(** * tools/llama/build_dataset.py: a shallow embedding and its properties

    The dataset packer of [tools/llama/build_dataset.py] is embedded as
    executable Rocq functions: the module prelude, the two task generators,
    [run_task] and the choice made by [main].  The collaborators that live
    outside the script (the file system, the phonemizer [g2p], [np.load],
    the protobuf serializer) are parameters of the embedding. *)

From Stdlib Require Import String Ascii.
From Stdlib Require Import List ZArith NArith Lia Bool.
From Stdlib Require Import Permutation Sorted.
Import ListNotations.

Set Implicit Arguments.

(** ** Python values *)

Module Py.

(** A Python [str] is a sequence of Unicode code points. *)
Definition pystr := list N.

(** Code points of an ASCII literal. *)
Definition str (s : string) : pystr :=
  List.map N_of_ascii (list_ascii_of_string s).

Definition pystr_eqb (a b : pystr) : bool :=
  if list_eq_dec N.eq_dec a b then true else false.

(** Exceptions, all of them subclasses of [Exception]. *)
Inductive exn : Type :=
| NameError (name : pystr)
| IndexError
| ValueError
| TypeError
| OtherError (tag : pystr).

Inductive result (A : Type) : Type :=
| Ok (a : A)
| Raise (e : exn).
Arguments Ok {A} a.
Arguments Raise {A} e.

Definition bind {A B} (r : result A) (k : A -> result B) : result B :=
  match r with
  | Ok a => k a
  | Raise e => Raise e
  end.

(** Truthiness of a string: the empty string is falsy. *)
Definition truthy (s : pystr) : bool :=
  match s with
  | [] => false
  | _ :: _ => true
  end.

(** [Py_UNICODE_ISSPACE]: the characters [str.strip()] strips and the
    regular-expression class [\s] matches on [str] patterns. *)
Definition is_space (c : N) : bool :=
  ((9 <=? c) && (c <=? 13) || (28 <=? c) && (c <=? 32)
   || (c =? 133) || (c =? 160) || (c =? 5760)
   || (8192 <=? c) && (c <=? 8202)
   || (c =? 8232) || (c =? 8233) || (c =? 8239) || (c =? 8287)
   || (c =? 12288))%N.

Fixpoint lstrip (s : pystr) : pystr :=
  match s with
  | [] => []
  | c :: s' => if is_space c then lstrip s' else s
  end.

Fixpoint rstrip (s : pystr) : pystr :=
  match s with
  | [] => []
  | c :: s' =>
      match rstrip s' with
      | [] => if is_space c then [] else [c]
      | r => c :: r
      end
  end.

(** [s.strip()] *)
Definition strip (s : pystr) : pystr := rstrip (lstrip s).

(** [sep.join(l)] *)
Fixpoint join (sep : pystr) (l : list pystr) : pystr :=
  match l with
  | [] => []
  | x :: l' =>
      match l' with
      | [] => x
      | _ :: _ => x ++ sep ++ join sep l'
      end
  end.

(** [l[i]] with Python's negative indices. *)
Definition index {A} (l : list A) (i : Z) : result A :=
  let n := Z.of_nat (length l) in
  let j := (if i <? 0 then i + n else i)%Z in
  if ((j <? 0) || (n <=? j))%Z then Raise IndexError
  else match nth_error l (Z.to_nat j) with
       | Some x => Ok x
       | None => Raise IndexError
       end.

(** [s.rfind(c)] for a one-character needle. *)
Fixpoint rfind (c : N) (s : pystr) : option nat :=
  match s with
  | [] => None
  | x :: s' =>
      match rfind c s' with
      | Some i => Some (S i)
      | None => if (x =? c)%N then Some 0 else None
      end
  end.

End Py.
Import Py.

Notation "x <- c1 ;; c2" := (bind c1 (fun x => c2))
  (at level 61, c1 at next level, right associativity).

(** ** The cleaning step of [run_task] (lines 98-101) *)

Module Clean.

Definition NL : N := 10.
Definition SPACE : N := 32.
Definition LBRACE : N := 123.
Definition RBRACE : N := 125.
Definition LANGLE : N := 60.
Definition RANGLE : N := 62.

(** Having read the opening bracket, the lazy [.*?] followed by the
    closing bracket succeeds at the first closing bracket, unless a newline
    (which [.] does not match) or the end of the text comes first.  The
    result is the number of characters the match consumes after the opening
    bracket, the closing one included. *)
Fixpoint span_len (close : N) (s : pystr) : option nat :=
  match s with
  | [] => None
  | c :: s' =>
      if (c =? close)%N then Some 1
      else if (c =? NL)%N then None
      else option_map S (span_len close s')
  end.

(** [re.sub(open .*? close, " ", s)]: the scan from left to right; [skip]
    counts the characters of the current match that are still to be
    consumed. *)
Fixpoint sub_scan (open close : N) (skip : nat) (s : pystr) : pystr :=
  match s with
  | [] => []
  | c :: s' =>
      match skip with
      | S k => sub_scan open close k s'
      | O =>
          if (c =? open)%N then
            match span_len close s' with
            | Some n => SPACE :: sub_scan open close n s'
            | None => c :: sub_scan open close 0 s'
            end
          else c :: sub_scan open close 0 s'
      end
  end.

Definition sub_span (open close : N) (s : pystr) : pystr :=
  sub_scan open close 0 s.

(** line 99 *)
Definition sub_brace : pystr -> pystr := sub_span LBRACE RBRACE.
(** line 100 *)
Definition sub_angle : pystr -> pystr := sub_span LANGLE RANGLE.

(** [re.sub(r"\s+", " ", s)]; [in_run] tells that the previous character
    belongs to the run being replaced. *)
Fixpoint ws_scan (in_run : bool) (s : pystr) : pystr :=
  match s with
  | [] => []
  | c :: s' =>
      if is_space c then
        if in_run then ws_scan true s' else SPACE :: ws_scan true s'
      else c :: ws_scan false s'
  end.

(** line 101 *)
Definition sub_ws : pystr -> pystr := ws_scan false.

(** lines 99-101 *)
Definition sanitize (text : pystr) : pystr :=
  sub_ws (sub_angle (sub_brace text)).

(** The cleaning as the specification words it: the same three
    replacements followed by a trim. *)
Definition sanitize_spec (text : pystr) : pystr :=
  strip (sub_ws (sub_angle (sub_brace text))).

End Clean.
Import Clean.

(** ** pathlib *)

Module Pathlib.

(** A path is the list of its components below the anchor; the anchor
    itself has an empty [name] and is shared by all the files found under
    one root, so it is left out. *)
Definition Path := list pystr.

Definition SLASH : N := 47.
Definition DOT : N := 46.

Fixpoint split_on (sep : N) (s : pystr) : list pystr :=
  match s with
  | [] => [[]]
  | c :: s' =>
      if (c =? sep)%N then [] :: split_on sep s'
      else match split_on sep s' with
           | [] => [[c]]
           | w :: ws => (c :: w) :: ws
           end
  end.

(** [Path(s)]: empty components and [.] components are dropped. *)
Definition of_str (s : pystr) : Path :=
  filter (fun c => negb (pystr_eqb c [] || pystr_eqb c [DOT]))
         (split_on SLASH s).

(** [p.name] *)
Definition name (p : Path) : pystr := last p [].

(** [p.parent] *)
Definition parent (p : Path) : Path := removelast p.

(** [p.suffix] *)
Definition suffix (p : Path) : pystr :=
  let n := name p in
  match rfind DOT n with
  | Some i => if (0 <? i)%nat && (i <? length n - 1)%nat then skipn i n else []
  | None => []
  end.

Definition startswith_dot (s : pystr) : bool :=
  match s with
  | c :: _ => (c =? DOT)%N
  | [] => false
  end.

(** [p.with_suffix(suffix)]; [None] is Python's [None], which the
    membership test on the suffix rejects with a [TypeError]. *)
Definition with_suffix (p : Path) (suffix_arg : option pystr) : result Path :=
  match suffix_arg with
  | None => Raise TypeError
  | Some sfx =>
      if existsb (N.eqb SLASH) sfx then Raise ValueError
      else if truthy sfx && negb (startswith_dot sfx) || pystr_eqb sfx [DOT]
      then Raise ValueError
      else
        let n := name p in
        if negb (truthy n) then Raise ValueError
        else
          let old_suffix := suffix p in
          let n' := if negb (truthy old_suffix) then n ++ sfx
                    else firstn (length n - length old_suffix) n ++ sfx in
          Ok (parent p ++ [n'])
  end.

(** Comparison of sequences, as Python compares lists and strings: the
    first position where the two differ decides, and a proper prefix is
    smaller. *)
Fixpoint lex_ltb {A} (eqb ltb : A -> A -> bool) (a b : list A) : bool :=
  match a, b with
  | _, [] => false
  | [], _ :: _ => true
  | x :: a', y :: b' => if eqb x y then lex_ltb eqb ltb a' b' else ltb x y
  end.

Definition str_ltb : pystr -> pystr -> bool := lex_ltb N.eqb N.ltb.

(** [p < q] on paths *)
Definition path_ltb : Path -> Path -> bool := lex_ltb pystr_eqb str_ltb.

End Pathlib.
Import Pathlib.

(** ** [sorted] *)

Module Sorting.
Section Sort.
Variable A : Type.
Variable ltb : A -> A -> bool.

(** [x] goes in front of the first element that is not smaller than it,
    so that equal elements keep their order. *)
Fixpoint insert (x : A) (l : list A) : list A :=
  match l with
  | [] => [x]
  | y :: l' => if ltb y x then y :: insert x l' else x :: y :: l'
  end.


(** [sorted(l)]: Python's sort is stable and compares with [<] only; the
    result of a stable sort is fixed by the order, and is computed here
    by insertion. *)
Fixpoint sorted (l : list A) : list A :=
  match l with
  | [] => []
  | x :: l' => insert x (sorted l')
  end.
End Sort.
End Sorting.
Import Sorting.

(** ** The module prelude (lines 1-19) *)

Module Startup.

Inductive stmt : Type :=
| Import (module : pystr)
| ImportAs (module alias : pystr)
| FromImport (module : pystr) (names : list pystr)
| SetEnviron (obj key value : pystr).
    (** [obj.environ[key] = value] *)

Record state : Type := mkState {
  globals : list pystr;
  environ : list (pystr * pystr)
}.

Definition bound (n : pystr) (st : state) : bool :=
  existsb (pystr_eqb n) (globals st).

Definition setenv (k v : pystr) (env : list (pystr * pystr)) :=
  (k, v) :: filter (fun kv => negb (pystr_eqb (fst kv) k)) env.

Definition getenv (k : pystr) (env : list (pystr * pystr)) : option pystr :=
  option_map snd (find (fun kv => pystr_eqb (fst kv) k) env).

(** None of the names the prelude uses is a builtin, so a name resolves
    exactly when the module has bound it. *)
Definition exec (s : stmt) (st : state) : result state :=
  match s with
  | Import m => Ok (mkState (m :: globals st) (environ st))
  | ImportAs _ a => Ok (mkState (a :: globals st) (environ st))
  | FromImport _ ns => Ok (mkState (ns ++ globals st) (environ st))
  | SetEnviron obj k v =>
      if bound obj st then Ok (mkState (globals st) (setenv k v (environ st)))
      else Raise (NameError obj)
  end.

Fixpoint exec_all (ss : list stmt) (st : state) : result state :=
  match ss with
  | [] => Ok st
  | s :: ss' => st' <- exec s st ;; exec_all ss' st'
  end.

Definition imports : list stmt :=
  [ Import (str "re");
    FromImport (str "collections") [str "defaultdict"];
    FromImport (str "multiprocessing") [str "Pool"];
    FromImport (str "pathlib") [str "Path"];
    Import (str "click");
    ImportAs (str "numpy") (str "np");
    Import (str "yaml");
    FromImport (str "loguru") [str "logger"];
    FromImport (str "tqdm") [str "tqdm"];
    FromImport (str "fish_speech.datasets.protos.text_data_pb2")
               [str "Semantics"; str "Sentence"; str "TextData"];
    FromImport (str "fish_speech.datasets.protos.text_data_stream")
               [str "pack_pb_stream"];
    FromImport (str "fish_speech.text") [str "g2p"];
    FromImport (str "fish_speech.utils.file") [str "load_filelist"] ].

(** lines 17-19 *)
Definition pin_threads : list stmt :=
  [ SetEnviron (str "os") (str "MKL_NUM_THREADS") (str "1");
    SetEnviron (str "os") (str "OMP_NUM_THREADS") (str "1") ].

(** lines 1-19 *)
Definition prelude : list stmt := imports ++ pin_threads.

(** The module starts with the builtins only and with the environment of
    the process. *)
Definition start (env : list (pystr * pystr)) : state := mkState [] env.

End Startup.

(** ** Tasks and records *)

Module Data.

(** A member of a group: a path (tree mode) or the tuple
    [(Path(filename), text, languages)] (manifest mode). *)
Inductive Member : Type :=
| MPath (file : Path)
| MTuple (file : Path) (text : option pystr) (languages : list pystr).

(** The tuple both generators yield. *)
Record Task : Type := mkTask {
  task_name : pystr;
  task_subset : list Member;
  task_source : pystr;
  task_languages : list pystr;
  task_extension : option pystr
}.

(** What a generator does when it is consumed to its end: the tasks it
    yields, in order, and the exception that ends it, if any. *)
Record Generated : Type := mkGenerated {
  emitted : list Task;
  raised : option exn
}.

(** Modelled from the spec: the messages of
    [fish_speech/datasets/protos/text_data_pb2], which is not part of the
    sources; section 6 gives their fields. *)
Record Semantics : Type := mkSemantics { values : list Z }.

Record Sentence : Type := mkSentence {
  text : pystr;
  phones : list pystr;
  semantics : list Semantics
}.

Record TextData : Type := mkTextData {
  source : pystr;
  name : pystr;
  languages : list pystr;
  sentences : list Sentence
}.

(** A plain Python value made of integers and lists, as [tolist()]
    returns it: an integer for an array without dimensions, a list for
    each dimension otherwise. *)
#[warnings="-register-all"]
Inductive pyval : Type :=
| PInt (z : Z)
| PList (l : list pyval).

(** What [np.load] returns: an [ndarray], or another object. *)
Inductive npvalue : Type :=
| NdArray (contents : pyval)
| Plain (v : pyval).

(** [group_parent_level] in the configuration. *)
Inductive parent_level_t : Type :=
| PLInt (level : Z)
| PLList (levels : list Z).

(** A row of [config["datasets"]]. *)
Record Dataset : Type := mkDataset {
  ds_root : pystr;
  ds_source : pystr;
  ds_languages : list pystr;
  ds_extension : option pystr;
  ds_group_parent_level : parent_level_t
}.

(** A line of the manifest as [load_filelist] returns it. *)
Record Line : Type := mkLine {
  ln_filename : pystr;
  ln_speaker : pystr;
  ln_languages : list pystr;
  ln_text : pystr
}.

(** The collaborators of the script. *)
Record World : Type := mkWorld {
  yaml_load : pystr -> result (list Dataset);
  load_filelist : pystr -> result (list Line);
  rglob_npy : pystr -> list Path;
  exists_ : Path -> bool;
  read_text : Path -> result pystr;
  g2p : pystr -> list pystr -> result (list (pystr * pystr));
  np_load : Path -> result npvalue;
  pack_pb_stream : TextData -> list N;
  open_wb : pystr -> result unit
}.

End Data.
Import Data.

(** ** GroupDiscovery *)

Module GroupDiscovery.

(** lines 44-48; the loop stops by itself after at most as many rounds as
    the path has components, [fuel] bounds the rounds. *)
Fixpoint parents_loop (fuel : nat) (pointer : Path) (all_parents : list pystr)
  : list pystr :=
  match fuel with
  | O => all_parents
  | S n =>
      if truthy (Pathlib.name (parent pointer))
      then parents_loop n (parent pointer)
                        (all_parents ++ [Pathlib.name (parent pointer)])
      else all_parents
  end.

Definition all_parents (file : Path) : list pystr :=
  parents_loop (length file) file [].

(** lines 50-52 *)
Fixpoint select (parents : list pystr) (parent_level : list Z)
  : result (list pystr) :=
  match parent_level with
  | [] => Ok []
  | level :: rest =>
      p <- index parents (level - 1) ;;
      ps <- select parents rest ;;
      Ok (p :: ps)
  end.

Definition DASH : pystr := str "-".

(** lines 44-54: the key of one file *)
Definition group_key (parent_level : list Z) (file : Path) : result pystr :=
  ps <- select (all_parents file) parent_level ;;
  Ok (join DASH ps).

(** [d[key].append(v)] on a [defaultdict(list)]; a dictionary keeps its
    keys in the order of their first insertion. *)
Fixpoint dict_append {V} (key : pystr) (v : V) (d : list (pystr * list V))
  : list (pystr * list V) :=
  match d with
  | [] => [(key, [v])]
  | (k, vs) :: d' =>
      if pystr_eqb k key then (k, vs ++ [v]) :: d'
      else (k, vs) :: dict_append key v d'
  end.

(** lines 43-55 *)
Fixpoint grouping (parent_level : list Z) (files : list Path)
         (grouped_files : list (pystr * list Path))
  : result (list (pystr * list Path)) :=
  match files with
  | [] => Ok grouped_files
  | file :: rest =>
      p <- group_key parent_level file ;;
      grouping parent_level rest (dict_append p file grouped_files)
  end.

(** lines 35-36 *)
Definition normalize_level (parent_level : parent_level_t) : list Z :=
  match parent_level with
  | PLInt level => [level]
  | PLList levels => levels
  end.

(** lines 35-55 for the files [rglob] has found, in the order it found
    them. *)
Definition group_files (parent_level : parent_level_t) (found : list Path)
  : result (list (pystr * list Path)) :=
  grouping (normalize_level parent_level) (sorted path_ltb found) [].

Definition dataset_tasks (row : Dataset) (groups : list (pystr * list Path))
  : list Task :=
  map (fun g => mkTask (fst g) (map MPath (snd g)) (ds_source row)
                       (ds_languages row) (ds_extension row))
      groups.

(** lines 26-59: the groups of a dataset are yielded once all its files
    are grouped, and before the next dataset is looked at. *)
Fixpoint generate_rows (w : World) (rows : list Dataset) : Generated :=
  match rows with
  | [] => mkGenerated [] None
  | row :: rest =>
      match group_files (ds_group_parent_level row) (rglob_npy w (ds_root row)) with
      | Raise e => mkGenerated [] (Some e)
      | Ok groups =>
          let g := generate_rows w rest in
          mkGenerated (dataset_tasks row groups ++ emitted g) (raised g)
      end
  end.

(** lines 22-59 *)
Definition task_generator_yaml (w : World) (config : pystr) : Generated :=
  match yaml_load w config with
  | Raise e => mkGenerated [] (Some e)
  | Ok rows => generate_rows w rows
  end.

(** lines 63-65 *)
Definition group_lines (lines : list Line) : list (pystr * list Member) :=
  fold_left
    (fun d ln =>
       dict_append (ln_speaker ln)
                   (MTuple (of_str (ln_filename ln)) (Some (ln_text ln))
                           (ln_languages ln)) d)
    lines [].

(** The loop variable [languages] once the loop of line 64 is over: the
    tags of the last line, and no binding when there was no line. *)
Definition leaked_languages (lines : list Line) : option (list pystr) :=
  match rev lines with
  | [] => None
  | ln :: _ => Some (ln_languages ln)
  end.

(** lines 62-69; without lines there is no group, and line 69 is never
    run. *)
Definition task_generator_filelist (w : World) (filelist : pystr) : Generated :=
  match load_filelist w filelist with
  | Raise e => mkGenerated [] (Some e)
  | Ok lines =>
      match leaked_languages lines with
      | None => mkGenerated [] None
      | Some languages =>
          mkGenerated
            (map (fun g => mkTask (fst g) (snd g) (str "filelist") languages None)
                 (group_lines lines))
            None
      end
  end.

End GroupDiscovery.
Import GroupDiscovery.

(** ** RecordBuilder *)

Module RecordBuilder.

Definition NPY : pystr := str ".npy".

Fixpoint mapM {A B} (f : A -> result B) (l : list A) : result (list B) :=
  match l with
  | [] => Ok []
  | x :: l' => y <- f x ;; ys <- mapM f l' ;; Ok (y :: ys)
  end.

(** lines 110-111 *)
Definition tolist_if_ndarray (v : npvalue) : pyval :=
  match v with
  | NdArray contents => contents
  | Plain v' => v'
  end.

(** [for s in v]: an integer cannot be iterated. *)
Definition iterate (v : pyval) : result (list pyval) :=
  match v with
  | PInt _ => Raise TypeError
  | PList l => Ok l
  end.

Definition as_int (v : pyval) : result Z :=
  match v with
  | PInt z => Ok z
  | PList _ => Raise TypeError
  end.

(** Modelled from the spec: [Semantics(values=s)] of the absent
    [text_data_pb2]; [values] is a list of integers (section 6), so the
    argument has to be a sequence of integers. *)
Definition new_Semantics (s : pyval) : result Semantics :=
  l <- iterate s ;;
  vs <- mapM as_int l ;;
  Ok (mkSemantics vs).

(** What the body of the loop does with the member at hand. *)
Inductive step : Type :=
| Continue
| Append (s : Sentence).

(** lines 78-81 *)
Definition unpack (languages : list pystr) (m : Member)
  : Path * option pystr * list pystr :=
  match m with
  | MTuple file text languages' => (file, text, languages')
  | MPath file => (file, None, languages)
  end.

(** lines 88-96: [None] stands for the [continue] of line 93. *)
Definition resolve_text (w : World) (extension : option pystr) (file : Path)
           (text : option pystr) : result (option pystr) :=
  match text with
  | Some t => Ok (Some t)
  | None =>
      txt_file <- with_suffix file extension ;;
      if negb (exists_ w txt_file) then Ok None
      else t <- read_text w txt_file ;; Ok (Some (strip t))
  end.

(** lines 104-105, the body of the [try] *)
Definition parse (w : World) (text : pystr) (languages : list pystr)
           (np_file : Path) : result (list pystr * npvalue) :=
  ph <- g2p w text languages ;;
  sem <- np_load w np_file ;;
  Ok (map snd ph, sem).

(** lines 110-119 *)
Definition build_sentence (text : pystr) (phones : list pystr) (sem : npvalue)
  : result Sentence :=
  rows <- iterate (tolist_if_ndarray sem) ;;
  sems <- mapM new_Semantics rows ;;
  Ok (mkSentence text phones sems).

(** lines 78-119: one round of the loop; the result carries the value of
    [languages] after the round. *)
Definition process (w : World) (extension : option pystr)
           (languages : list pystr) (m : Member)
  : result (list pystr * step) :=
  let '(file, text, languages) := unpack languages m in
  np_file <- with_suffix file (Some NPY) ;;
  if negb (exists_ w np_file) then Ok (languages, Continue)
  else
    rt <- resolve_text w extension file text ;;
    match rt with
    | None => Ok (languages, Continue)
    | Some text =>
        let text := sanitize text in
        match parse w text languages np_file with
        | Raise _ => Ok (languages, Continue)
        | Ok (phones, sem) =>
            s <- build_sentence text phones sem ;;
            Ok (languages, Append s)
        end
    end.

(** lines 76-119 *)
Fixpoint loop (w : World) (extension : option pystr) (subset : list Member)
         (languages : list pystr) (sentences : list Sentence)
  : result (list Sentence * list pystr) :=
  match subset with
  | [] => Ok (sentences, languages)
  | m :: rest =>
      r <- process w extension languages m ;;
      loop w extension rest (fst r)
           match snd r with
           | Continue => sentences
           | Append s => sentences ++ [s]
           end
  end.

(** lines 73-128: the record handed to [pack_pb_stream] *)
Definition run_task_record (w : World) (task : Task) : result TextData :=
  r <- loop w (task_extension task) (task_subset task) (task_languages task) [] ;;
  Ok (mkTextData (task_source task) (task_name task) (snd r) (fst r)).

(** lines 72-129 *)
Definition run_task (w : World) (task : Task) : result (list N) :=
  r <- run_task_record w task ;;
  Ok (pack_pb_stream w r).

End RecordBuilder.
Import RecordBuilder.

(** ** Driver *)

Module Driver.

(** The options given on the command line. *)
Record Cli : Type := mkCli {
  opt_config : option pystr;
  opt_output : option pystr;
  opt_filelist : option pystr;
  opt_num_workers : option Z
}.

(** The parameters of [main]. *)
Record Args : Type := mkArgs {
  config : pystr;
  output : pystr;
  filelist : option pystr;
  num_workers : Z
}.

Definition or_default {A} (o : option A) (d : A) : A :=
  match o with
  | Some a => a
  | None => d
  end.

(** lines 132-138: the options with their defaults *)
Definition click_options (c : Cli) : Args :=
  mkArgs (or_default (opt_config c) (str "fish_speech/configs/data/finetune.yaml"))
         (or_default (opt_output c) (str "data/quantized-dataset-ft.protos"))
         (opt_filelist c)
         (or_default (opt_num_workers c) 16%Z).

(** lines 141-145 *)
Definition generator_fn (w : World) (a : Args) : Generated :=
  match filelist a with
  | None => task_generator_yaml w (config a)
  | Some f => task_generator_filelist w f
  end.

(** lines 140-149 for a run that ends normally: the results of the tasks,
    in the order of the tasks.  The output is opened first; [Pool] then
    refuses a number of workers below 1 with a [ValueError], before the
    generator is asked for its first task. *)
Definition results (w : World) (a : Args) : result (list (list N)) :=
  _ <- open_wb w (output a) ;;
  if (num_workers a <? 1)%Z then Raise ValueError
  else
    let g := generator_fn w a in
    match raised g with
    | Some e => Raise e
    | None => mapM (run_task w) (emitted g)
    end.

(** [imap_unordered] hands the results over in the order the workers
    finish; the file holds them in that order. *)
Inductive main_writes (w : World) (a : Args) : list N -> Prop :=
| main_writes_intro (frames order : list (list N)) :
    results w a = Ok frames ->
    Permutation frames order ->
    main_writes w a (concat order).

(** [main] as the command line runs it. *)
Definition main (w : World) (c : Cli) : result (list (list N)) :=
  results w (click_options c).

End Driver.
Import Driver.

(** ** Vocabulary of the statements *)

Module Spec.

(** [c] does not occur in [s]. *)
Definition lacks (c : N) (s : pystr) : bool :=
  forallb (fun x => negb (x =? c)%N) s.

(** The text stops here or goes on with a new line. *)
Definition at_line_end (s : pystr) : bool :=
  match s with
  | [] => true
  | c :: _ => (c =? NL)%N
  end.

(** Every whitespace character is a plain space and no two of them are
    adjacent; [prev] tells that the character before is a whitespace. *)
Fixpoint single_spaced (prev : bool) (s : pystr) : bool :=
  match s with
  | [] => true
  | c :: s' =>
      if is_space c then (c =? SPACE)%N && negb prev && single_spaced true s'
      else single_spaced false s'
  end.

Definition visible (s : pystr) : pystr :=
  filter (fun c => negb (is_space c)) s.

(** The closing bracket that goes with an opening one. *)
Definition closer (o : N) : N :=
  if (o =? LBRACE)%N then RBRACE else RANGLE.

Definition is_opener (o : N) : bool := (o =? LBRACE)%N || (o =? LANGLE)%N.

(** The cleaning of the code is the cleaning the specification words. *)
Definition cleaning_trims : Prop :=
  forall text, sanitize text = sanitize_spec text.

(** An opening bracket without its closing bracket on the rest of its
    line stays in the cleaned text, and so does what follows it, up to the
    collapsing of whitespace. *)
Definition unmatched_opener_kept : Prop :=
  forall pre o rest,
    is_opener o = true ->
    span_len (closer o) rest = None ->
    exists out, sanitize (pre ++ o :: rest) = out ++ o :: sub_ws rest.

(** [d[key]], empty when the key is absent. *)
Fixpoint dict_get {V} (key : pystr) (d : list (pystr * list V)) : list V :=
  match d with
  | [] => []
  | (k, vs) :: d' => if pystr_eqb k key then vs else dict_get key d'
  end.

(** The file has this key. *)
Definition in_group (parent_level : list Z) (key : pystr) (file : Path)
  : bool :=
  match group_key parent_level file with
  | Ok k => pystr_eqb k key
  | Raise _ => false
  end.

(** pathlib never builds a path with an empty component. *)
Definition well_formed (p : Path) : Prop :=
  Forall (fun c => truthy c = true) p.

(** The number of directories above a file. *)
Definition depth (file : Path) : Z := Z.of_nat (length (all_parents file)).

(** One of the indices of the dataset is larger than the depth of one of
    its files. *)
Definition exceeds_depth (w : World) (row : Dataset) : Prop :=
  exists file level,
    In file (rglob_npy w (ds_root row))
    /\ In level (normalize_level (ds_group_parent_level row))
    /\ (depth file < level)%Z.

(** An index beyond the depth of a file ends the generator before it has
    yielded anything. *)
Definition fails_fast : Prop :=
  forall w rows,
    (exists row, In row rows /\ exceeds_depth w row) ->
    exists e, generate_rows w rows = mkGenerated [] (Some e).

Definition two_datasets : list Dataset :=
  [ mkDataset (str "a") (str "A") [str "en"] (Some (str ".lab")) (PLList [1%Z]);
    mkDataset (str "b") (str "B") [str "en"] (Some (str ".lab")) (PLList [2%Z]) ].

(** Two roots, [a] with [a/s1/f.npy] and [a/s2/g.npy], and [b] with
    [b/g.npy], and a configuration with one dataset for each; [swapped]
    chooses the order in which the files of [a] are enumerated. *)
Definition tree_world (swapped : bool) : World :=
  mkWorld (fun _ => Ok two_datasets) (fun _ => Ok [])
          (fun root =>
             if pystr_eqb root (str "a")
             then if swapped
                  then [[str "a"; str "s2"; str "g.npy"];
                        [str "a"; str "s1"; str "f.npy"]]
                  else [[str "a"; str "s1"; str "f.npy"];
                        [str "a"; str "s2"; str "g.npy"]]
             else if pystr_eqb root (str "b") then [[str "b"; str "g.npy"]]
             else [])
          (fun _ => false)
          (fun _ => Raise (OtherError (str "FileNotFoundError")))
          (fun _ _ => Ok [])
          (fun _ => Raise (OtherError (str "FileNotFoundError")))
          (fun _ => []) (fun _ => Ok tt).

(** A world in which nothing is found and nothing fails. *)
Definition quiet_world : World :=
  mkWorld (fun _ => Ok []) (fun _ => Ok []) (fun _ => []) (fun _ => false)
          (fun _ => Raise (OtherError (str "FileNotFoundError")))
          (fun _ _ => Ok [])
          (fun _ => Raise (OtherError (str "FileNotFoundError")))
          (fun _ => []) (fun _ => Ok tt).

(** A command line that gives both a configuration and a manifest is
    rejected. *)
Definition both_sources_rejected : Prop :=
  forall w c cfg fl,
    opt_config c = Some cfg -> opt_filelist c = Some fl ->
    exists e, main w c = Raise e.

(** The parts of a member, as lines 78-81 unpack them. *)
Definition member_file (m : Member) : Path :=
  match m with
  | MPath file => file
  | MTuple file _ _ => file
  end.

Definition member_text (m : Member) : option pystr :=
  match m with
  | MPath _ => None
  | MTuple _ text _ => text
  end.

(** The value of [languages] once the member has been unpacked. *)
Definition languages_after (languages : list pystr) (m : Member) : list pystr :=
  match m with
  | MPath _ => languages
  | MTuple _ _ languages' => languages'
  end.

(** What becomes of a member: the four failures that skip it, and the
    sentence it gives otherwise. *)
Inductive member_outcome (w : World) (extension : option pystr)
          (languages : list pystr) (m : Member) : step -> Prop :=
| missing_feature np_file :
    with_suffix (member_file m) (Some NPY) = Ok np_file ->
    exists_ w np_file = false ->
    member_outcome w extension languages m Continue
| missing_sidecar np_file txt_file :
    with_suffix (member_file m) (Some NPY) = Ok np_file ->
    exists_ w np_file = true ->
    member_text m = None ->
    with_suffix (member_file m) extension = Ok txt_file ->
    exists_ w txt_file = false ->
    member_outcome w extension languages m Continue
| phonemizer_error np_file t e :
    with_suffix (member_file m) (Some NPY) = Ok np_file ->
    exists_ w np_file = true ->
    resolve_text w extension (member_file m) (member_text m) = Ok (Some t) ->
    g2p w (sanitize t) (languages_after languages m) = Raise e ->
    member_outcome w extension languages m Continue
| loading_error np_file t ph e :
    with_suffix (member_file m) (Some NPY) = Ok np_file ->
    exists_ w np_file = true ->
    resolve_text w extension (member_file m) (member_text m) = Ok (Some t) ->
    g2p w (sanitize t) (languages_after languages m) = Ok ph ->
    np_load w np_file = Raise e ->
    member_outcome w extension languages m Continue
| sentence_built np_file t ph v s :
    with_suffix (member_file m) (Some NPY) = Ok np_file ->
    exists_ w np_file = true ->
    resolve_text w extension (member_file m) (member_text m) = Ok (Some t) ->
    g2p w (sanitize t) (languages_after languages m) = Ok ph ->
    np_load w np_file = Ok v ->
    build_sentence (sanitize t) (map snd ph) v = Ok s ->
    member_outcome w extension languages m (Append s).

(** What becomes of a group: the sentences of its members that are not
    skipped, in the order of the members, and the last value of
    [languages]. *)
Inductive group_outcome (w : World) (extension : option pystr)
  : list pystr -> list Member -> list Sentence -> list pystr -> Prop :=
| group_done languages :
    group_outcome w extension languages [] [] languages
| group_skip languages m rest sents languages' :
    member_outcome w extension languages m Continue ->
    group_outcome w extension (languages_after languages m) rest sents languages' ->
    group_outcome w extension languages (m :: rest) sents languages'
| group_append languages m s rest sents languages' :
    member_outcome w extension languages m (Append s) ->
    group_outcome w extension (languages_after languages m) rest sents languages' ->
    group_outcome w extension languages (m :: rest) (s :: sents) languages'.






(** Every group gives its record. *)
Definition every_group_yields_a_record : Prop :=
  forall w task,
  exists sents langs,
    loop w (task_extension task) (task_subset task) (task_languages task) []
    = Ok (sents, langs)
    /\ run_task w task
       = Ok (pack_pb_stream w
               (mkTextData (task_source task) (task_name task) langs sents)).

(** The record carries the tags of the tuple the generator yielded. *)
Definition languages_follow_tuple : Prop :=
  forall w g task record,
    (exists config, g = task_generator_yaml w config)
    \/ (exists fl, g = task_generator_filelist w fl) ->
    In task (emitted g) ->
    run_task_record w task = Ok record ->
    languages record = task_languages task.

(** A manifest with two speakers,
    [wavs/a.wav|spk1|en|hi], [wavs/b.wav|spk1|zh|yo] and
    [wavs/c.wav|spk2|ja|Hello {noise} world]; every file exists but
    [wavs/b.npy], the phonemizer gives one phone for each character and
    [np.load] gives [array]. *)
Definition manifest_world (array : npvalue) : World :=
  mkWorld (fun _ => Ok [])
          (fun _ =>
             Ok [ mkLine (str "wavs/a.wav") (str "spk1") [str "en"] (str "hi");
                  mkLine (str "wavs/b.wav") (str "spk1") [str "zh"] (str "yo");
                  mkLine (str "wavs/c.wav") (str "spk2") [str "ja"]
                         (str "Hello {noise} world") ])
          (fun _ => [])
          (fun p => negb (pystr_eqb (Pathlib.name p) (str "b.npy")))
          (fun _ => Ok (str " hello {x} world "))
          (fun text _ => Ok (map (fun c => (str "en", [c])) text))
          (fun _ => Ok array)
          (fun _ => []) (fun _ => Ok tt).

(** Two codebooks of three codes. *)
Definition codes : npvalue :=
  NdArray (PList [PList [PInt 1; PInt 2; PInt 3]; PList [PInt 4; PInt 5; PInt 6]]).

(** The text starts with a character that is no whitespace, or is empty. *)
Definition starts_visible (s : pystr) : bool :=
  match s with
  | [] => true
  | c :: _ => negb (is_space c)
  end.

(** [f] replaces the spans from [o] to [c] by one space, from left to
    right: a character other than [o] is kept; an [o] followed by its [c]
    with no [c] and no newline in between is replaced, with all up to that
    [c], by one space; an [o] that meets the end of its line before any [c]
    is kept. *)
Definition replaces_spans (o c : N) (f : pystr -> pystr) : Prop :=
  f [] = []
  /\ (forall x s, (x =? o)%N = false -> f (x :: s) = x :: f s)
  /\ (forall body rest,
         lacks c body = true -> lacks NL body = true ->
         f (o :: body ++ c :: rest) = SPACE :: f rest)
  /\ (forall mid tail,
         lacks c mid = true -> lacks NL mid = true -> at_line_end tail = true ->
         f (o :: mid ++ tail) = o :: f (mid ++ tail)).

(** [f] replaces each run of whitespace, taken as long as it goes, by one
    space, and keeps every other character. *)
Definition collapses_runs (f : pystr -> pystr) : Prop :=
  f [] = []
  /\ (forall x s, is_space x = false -> f (x :: s) = x :: f s)
  /\ (forall run rest,
         run <> [] -> forallb is_space run = true ->
         starts_visible rest = true ->
         f (run ++ rest) = SPACE :: f rest).

End Spec.
Import Spec.

(** ** Further vocabulary *)

Module Terms.

(** The tuple line 65 makes of a line of the manifest. *)
Definition member_of_line (ln : Line) : Member :=
  MTuple (of_str (ln_filename ln)) (Some (ln_text ln)) (ln_languages ln).

Definition spoken_by (speaker : pystr) (ln : Line) : bool :=
  pystr_eqb (ln_speaker ln) speaker.

(** The index is outside of the ancestors of the file, from either end. *)
Definition out_of_range (file : Path) (level : Z) : Prop :=
  (depth file < level \/ level <= - depth file)%Z.

(** The nested list a list of [Semantics] stands for. *)
Definition rows_of (sems : list Semantics) : pyval :=
  PList (map (fun sem => PList (map PInt (values sem))) sems).

(** The group of [spk2] in [manifest_world] and its record. *)
Definition spk2_task : Task :=
  mkTask (str "spk2")
         [MTuple [str "wavs"; str "c.wav"]
                 (Some (str "Hello {noise} world")) [str "ja"]]
         (str "filelist") [str "ja"] None.

Definition spk2_record : TextData :=
  mkTextData (str "filelist") (str "spk2") [str "ja"]
    [mkSentence (str "Hello world")
                (map (fun c => [c]) (str "Hello world"))
                [mkSemantics [1; 2; 3]%Z; mkSemantics [4; 5; 6]%Z]].

End Terms.
Import Terms.

(** ** tools/vqgan/create_train_split.py *)

Module TrainSplit.

Definition PIPE : N := 124.

(** An element of [files]: a string in the branch of the file list, a
    path when [list_files] gives it. *)
Inductive pyfile : Type :=
| FStr (s : pystr)
| FPath (p : Path).

(** The collaborators of the script: the lines of the file list,
    [os.path.isfile], [list_files(root, AUDIO_EXTENSIONS, recursive=True,
    sort=True)], the permutation [Random(42).shuffle] applies, and
    [math.ceil(n * val_ratio)] for the ratio of the run. *)
Record SplitWorld : Type := mkSplitWorld {
  readlines : Path -> result (list pystr);
  isfile : pystr -> bool;
  list_files : Path -> list Path;
  shuffle : list pystr -> list pystr;
  ceil_of_ratio : nat -> result Z
}.

(** The parameters of [main]; the ratio is with the world. *)
Record SplitArgs : Type := mkSplitArgs {
  root : Path;
  val_count : option Z;
  filelist : option Path
}.

(** line 24: [line.strip().split("|")[0]] *)
Definition first_field (line : pystr) : pystr :=
  hd [] (split_on PIPE (strip line)).

(** The variables of the loop of lines 23-33: [file], unbound before the
    first round, and the two counters. *)
Record scan_state : Type := mkScan {
  file : option pystr;
  countSame : nat;
  countNotFound : nat
}.

(** lines 23-33; [files] is the set of line 20, which the loop reads and
    never changes. *)
Fixpoint scan (w : SplitWorld) (files : list pystr) (lines : list pystr)
         (st : scan_state) : scan_state :=
  match lines with
  | [] => st
  | line :: rest =>
      let f := first_field line in
      if existsb (pystr_eqb f) files
      then scan w files rest (mkScan (Some f) (S (countSame st)) (countNotFound st))
      else if negb (isfile w f)
      then scan w files rest (mkScan (Some f) (countSame st) (S (countNotFound st)))
      else scan w files rest (mkScan (Some f) (countSame st) (countNotFound st))
  end.

(** lines 18-35 *)
Definition files_of_filelist (w : SplitWorld) (fl : Path) : result (list pyfile) :=
  lines <- readlines w fl ;;
  match file (scan w [] lines (mkScan None 0 0)) with
  | None => Raise (OtherError (str "UnboundLocalError"))
  | Some f => Ok [FStr f]
  end.

(** [p.relative_to(root)] *)
Fixpoint relative_to (p root : Path) {struct root} : result Path :=
  match root with
  | [] => Ok p
  | r :: root' =>
      match p with
      | [] => Raise ValueError
      | c :: p' => if pystr_eqb r c then relative_to p' root' else Raise ValueError
      end
  end.

(** [str(p)] *)
Definition path_str (p : Path) : pystr :=
  match p with
  | [] => [DOT]
  | _ :: _ => join [SLASH] p
  end.

(** line 40, for one element: a string has no [relative_to]. *)
Definition relative_name (root : Path) (f : pyfile) : result pystr :=
  match f with
  | FStr _ => Raise (OtherError (str "AttributeError"))
  | FPath p => r <- relative_to p root ;; Ok (path_str r)
  end.

(** The bound of a slice, as Python clips it. *)
Definition slice_index (n : nat) (v : Z) : nat :=
  Z.to_nat (if v <? 0 then Z.max 0 (v + Z.of_nat n) else Z.min v (Z.of_nat n))%Z.

(** [l[:v]] *)
Definition slice_to {A} (l : list A) (v : Z) : list A :=
  firstn (slice_index (length l) v) l.

(** [l[v:]] *)
Definition slice_from {A} (l : list A) (v : Z) : list A :=
  skipn (slice_index (length l) v) l.

(** lines 44-49 *)
Definition val_size_of (w : SplitWorld) (val_count : option Z) (n : nat)
  : result Z :=
  match val_count with
  | Some c =>
      if ((c <? 1) || (Z.of_nat n <? c))%Z then Raise ValueError else Ok c
  | None => ceil_of_ratio w n
  end.

(** lines 16-57: the files written, in the order they are written, each
    with its content. *)
Definition main (w : SplitWorld) (a : SplitArgs) : result (list (Path * pystr)) :=
  files <- match filelist a with
           | Some fl => files_of_filelist w fl
           | None => Ok (map FPath (list_files w (root a)))
           end ;;
  names <- mapM (relative_name (root a)) files ;;
  let files := shuffle w names in
  val_size <- val_size_of w (val_count a) (length files) ;;
  Ok [ (root a ++ [str "vq_train_filelist.txt"], join [NL] (slice_from files val_size));
       (root a ++ [str "vq_val_filelist.txt"], join [NL] (slice_to files val_size)) ].

(** Three files under [data], listed in reverse by the shuffle. *)
Definition split_world : SplitWorld :=
  mkSplitWorld (fun _ => Ok [str "a.wav|spk|en|hi"; str "b.wav|spk|en|yo"])
               (fun _ => true)
               (fun root => [root ++ [str "a.wav"]; root ++ [str "s"; str "b.wav"];
                             root ++ [str "c.wav"]])
               (fun l => rev l)
               (fun n => Ok ((Z.of_nat n + 4) / 5)%Z).

(** [file] is bound. *)
Definition file_bound (st : scan_state) : Prop := file st <> None.

End TrainSplit.

(** ** tools/post_api.py: the references of the request *)

Module PostApi.

(** The collaborators: [Path(s).exists()] and [is_file()], which can raise
    on a name the system refuses, the content of a file as bytes and as
    UTF-8 text, [base64.b64encode(b).decode("utf-8")], [mkdir] and
    [list_files(folder, AUDIO_EXTENSIONS, recursive=True, sort=False)]. *)
Record ApiWorld : Type := mkApiWorld {
  path_exists : pystr -> result bool;
  path_is_file : pystr -> result bool;
  read_bytes : pystr -> result (list N);
  read_utf8 : pystr -> result pystr;
  b64encode : list N -> pystr;
  mkdir : Path -> result unit;
  list_audio : Path -> list Path
}.

(** The arguments the references are built from. *)
Record ApiArgs : Type := mkApiArgs {
  reference_id : option pystr;
  reference_audio : option (list pystr);
  reference_text : option (list pystr)
}.

(** lines 14-20; the result is [None] or the encoded content. *)
Definition audio_to_base64 (w : ApiWorld) (file_path : pystr)
  : result (option pystr) :=
  if negb (truthy file_path) then Ok None
  else
    e <- path_exists w file_path ;;
    if negb e then Ok None
    else wav_content <- read_bytes w file_path ;;
         Ok (Some (b64encode w wav_content)).

(** lines 23-28 *)
Definition read_ref_text (w : ApiWorld) (ref_text : pystr) : result pystr :=
  e <- path_exists w ref_text ;;
  if e then
    f <- path_is_file w ref_text ;;
    if f then read_utf8 w ref_text else Ok ref_text
  else Ok ref_text.

(** [for x in v] on an argument that is a list or [None]. *)
Definition iterate_arg {A} (v : option (list A)) : result (list A) :=
  match v with
  | None => Raise TypeError
  | Some l => Ok l
  end.

Definition LAB : pystr := str ".lab".

(** line 145 for one file *)
Definition lab_text (w : ApiWorld) (ref_audio : Path) : result pystr :=
  lab <- with_suffix ref_audio (Some LAB) ;;
  read_ref_text w (TrainSplit.path_str lab).

(** lines 130-154: the value of [data["references"]], each reference as
    the pair of its text and its audio. *)
Definition references (w : ApiWorld) (a : ApiArgs)
  : result (list (pystr * option pystr)) :=
  match reference_id a with
  | None =>
      audios <- iterate_arg (reference_audio a) ;;
      base64_audios <- mapM (audio_to_base64 w) audios ;;
      texts <- iterate_arg (reference_text a) ;;
      ref_texts <- mapM (read_ref_text w) texts ;;
      Ok (combine ref_texts base64_audios)
  | Some idstr =>
      (* [Path("references") / idstr], for an [idstr] that is relative *)
      let ref_folder := of_str (str "references") ++ of_str idstr in
      _ <- mkdir w ref_folder ;;
      let ref_audios := list_audio w ref_folder in
      base64_audios <-
        mapM (fun p => audio_to_base64 w (TrainSplit.path_str p)) ref_audios ;;
      ref_texts <- mapM (lab_text w) ref_audios ;;
      Ok (combine ref_texts base64_audios)
  end.

(** A folder [references/voice] with [a.wav], whose [a.lab] exists, and
    [b.wav], whose [b.lab] does not. *)
Definition voice_world : ApiWorld :=
  mkApiWorld (fun s => Ok (negb (pystr_eqb s (str "references/voice/b.lab"))))
             (fun s => Ok (pystr_eqb s (str "references/voice/a.lab")))
             (fun _ => Ok [82; 73; 70; 70]%N)
             (fun _ => Ok (str "hello"))
             (fun _ => str "UklGRg==")
             (fun _ => Ok tt)
             (fun folder => [folder ++ [str "a.wav"]; folder ++ [str "b.wav"]]).

End PostApi.

(** * Properties *)

(** ** Cleaning *)

#[local] Arguments N.eqb : simpl never.
#[local] Arguments is_space : simpl never.
Unset Implicit Arguments.

Section SubSpan.
Variables open close : N.

Lemma lacks_cons c x s :
  lacks c (x :: s) = true -> (x =? c)%N = false /\ lacks c s = true.
Proof.
  unfold lacks; simpl. intros [H1 H2]%andb_prop.
  now apply negb_true_iff in H1.
Qed.

Lemma span_len_le s n : span_len close s = Some n -> (n <= length s)%nat.
Proof.
  revert n; induction s as [|c s IH]; intros n; simpl; [discriminate|].
  destruct (c =? close)%N; [intros [= <-]; lia|].
  destruct (c =? NL)%N; [discriminate|].
  destruct (span_len close s) as [k|]; [|discriminate].
  intros [= <-]. specialize (IH k eq_refl). lia.
Qed.

Lemma span_len_found body rest :
  lacks close body = true -> lacks NL body = true ->
  span_len close (body ++ close :: rest) = Some (S (length body)).
Proof.
  induction body as [|c body IH]; simpl.
  - now rewrite N.eqb_refl.
  - intros [Hc Hb]%lacks_cons [Hn Hl]%lacks_cons.
    rewrite Hc, Hn, (IH Hb Hl). reflexivity.
Qed.

Lemma span_len_none mid tail :
  (NL =? close)%N = false ->
  lacks close mid = true -> lacks NL mid = true -> at_line_end tail = true ->
  span_len close (mid ++ tail) = None.
Proof.
  intros Hnl Hc Hn Ht. induction mid as [|c mid IH]; simpl.
  - destruct tail as [|t tail]; [reflexivity|]. simpl in Ht.
    apply N.eqb_eq in Ht; subst t. simpl. now rewrite Hnl.
  - apply lacks_cons in Hc as [Hc Hc'], Hn as [Hn Hn'].
    rewrite Hc, Hn, (IH Hc' Hn'). reflexivity.
Qed.

Lemma span_len_app p x :
  span_len close x = None -> span_len close (p ++ x) = span_len close p.
Proof.
  intros Hx. induction p as [|c p IH]; simpl; [exact Hx|].
  now rewrite IH.
Qed.

Lemma sub_scan_skip body rest :
  sub_scan open close (length body) (body ++ rest) = sub_span open close rest.
Proof.
  induction body as [|c body IH]; simpl; [reflexivity|exact IH].
Qed.

Lemma sub_scan_app x :
  span_len close x = None ->
  forall pre n, (n <= length pre)%nat ->
    sub_scan open close n (pre ++ x)
    = sub_scan open close n pre ++ sub_span open close x.
Proof.
  intros Hx. induction pre as [|c pre IH]; intros n Hn; simpl in *.
  - assert (n = 0)%nat as -> by lia. reflexivity.
  - destruct n as [|k].
    + destruct (c =? open)%N.
      * rewrite (span_len_app pre x Hx).
        destruct (span_len close pre) as [k|] eqn:E.
        -- simpl. f_equal. apply IH. now apply span_len_le.
        -- simpl. f_equal. apply IH. lia.
      * simpl. f_equal. apply IH. lia.
    + apply IH. lia.
Qed.

Lemma sub_span_plain mid tail :
  (NL =? close)%N = false ->
  lacks close mid = true -> lacks NL mid = true -> at_line_end tail = true ->
  sub_span open close (mid ++ tail) = mid ++ sub_span open close tail.
Proof.
  intros Hnl Hc Hn Ht. induction mid as [|c mid IH]; [reflexivity|].
  apply lacks_cons in Hc as [Hc Hc'], Hn as [Hn Hn'].
  unfold sub_span in *. simpl.
  rewrite (span_len_none mid tail Hnl Hc' Hn' Ht), (IH Hc' Hn').
  now destruct (c =? open)%N.
Qed.

(** A stretch of text without closing bracket, up to the end of its line,
    goes through the replacement unchanged, whatever comes before. *)
Lemma sub_span_kept pre mid tail :
  (NL =? close)%N = false ->
  lacks close mid = true -> lacks NL mid = true -> at_line_end tail = true ->
  sub_span open close (pre ++ mid ++ tail)
  = sub_span open close pre ++ mid ++ sub_span open close tail.
Proof.
  intros Hnl Hc Hn Ht. unfold sub_span at 1.
  rewrite sub_scan_app by (auto using span_len_none; lia).
  now rewrite sub_span_plain.
Qed.

(** The leftmost span is replaced by one space, and the scan goes on
    behind its closing bracket. *)
Lemma sub_span_replaced pre body rest :
  lacks open pre = true ->
  lacks close body = true -> lacks NL body = true ->
  sub_span open close (pre ++ open :: body ++ close :: rest)
  = pre ++ SPACE :: sub_span open close rest.
Proof.
  intros Hp Hc Hn. induction pre as [|c pre IH]; unfold sub_span in *; simpl.
  - rewrite N.eqb_refl, (span_len_found body rest Hc Hn).
    f_equal.
    replace (S (length body)) with (length (body ++ [close]))
      by (rewrite length_app; simpl; lia).
    replace (body ++ close :: rest) with ((body ++ [close]) ++ rest)
      by (now rewrite <- app_assoc).
    apply sub_scan_skip.
  - apply lacks_cons in Hp as [Hp Hp']. rewrite Hp. f_equal. now apply IH.
Qed.

End SubSpan.

Lemma is_space_SPACE : is_space SPACE = true.
Proof. reflexivity. Qed.

Lemma ws_scan_single_spaced b s : single_spaced b (ws_scan b s) = true.
Proof.
  revert b; induction s as [|c s IH]; intros b; simpl; [reflexivity|].
  destruct (is_space c) eqn:E.
  - destruct b; simpl; rewrite ?is_space_SPACE, ?N.eqb_refl; simpl; apply IH.
  - simpl. rewrite E. apply IH.
Qed.

Lemma ws_scan_visible b s : visible (ws_scan b s) = visible s.
Proof.
  revert b; induction s as [|c s IH]; intros b; simpl; [reflexivity|].
  destruct (is_space c) eqn:E; simpl.
  - destruct b; simpl; rewrite ?is_space_SPACE; simpl; apply IH.
  - rewrite E; simpl. f_equal. apply IH.
Qed.

Lemma ws_scan_app_visible b a c r :
  is_space c = false ->
  ws_scan b (a ++ c :: r) = ws_scan b a ++ c :: ws_scan false r.
Proof.
  intros Hc. revert b; induction a as [|x a IH]; intros b; simpl.
  - now rewrite Hc.
  - destruct (is_space x); [destruct b|]; simpl; now rewrite IH.
Qed.

Lemma lstrip_single_spaced s :
  single_spaced false s = true ->
  exists a, s = a ++ lstrip s /\ (a = [] \/ a = [SPACE])
            /\ single_spaced false (lstrip s) = true.
Proof.
  destruct s as [|c s]; simpl.
  - exists []. auto.
  - destruct (is_space c) eqn:E.
    + intros [[Hc _]%andb_prop Hs]%andb_prop. apply N.eqb_eq in Hc; subst c.
      exists [SPACE]. destruct s as [|d s]; simpl in *; [auto|].
      destruct (is_space d) eqn:Ed.
      * rewrite andb_false_r in Hs. discriminate.
      * repeat split; auto. simpl. now rewrite Ed.
    + intros Hs. exists []. simpl. rewrite E. auto.
Qed.

Lemma rstrip_single_spaced s :
  forall prev, single_spaced prev s = true ->
  exists b, s = rstrip s ++ b /\ (b = [] \/ b = [SPACE]).
Proof.
  induction s as [|c s IH]; intros prev; simpl.
  - exists []. auto.
  - destruct (is_space c) eqn:E.
    + intros [[Hc _]%andb_prop Hs]%andb_prop. apply N.eqb_eq in Hc; subst c.
      destruct (IH _ Hs) as (b & Hb & Hcase).
      destruct (rstrip s) as [|r rs] eqn:R.
      * simpl in Hb. subst s. destruct Hcase as [->| ->].
        -- exists [SPACE]. auto.
        -- simpl in Hs. rewrite ?is_space_SPACE in Hs. simpl in Hs.
           rewrite ?andb_false_r in Hs. discriminate.
      * exists b. split; [|exact Hcase]. simpl. f_equal. exact Hb.
    + intros Hs. destruct (IH _ Hs) as (b & Hb & Hcase).
      exists b. split; [|exact Hcase].
      destruct (rstrip s) as [|r rs]; simpl; f_equal; exact Hb.
Qed.

(** The cleaned text is the trimmed one with at most one space left at
    either end. *)
Lemma sanitize_untrimmed text :
  exists a b, sanitize text = a ++ sanitize_spec text ++ b
              /\ (a = [] \/ a = [SPACE]) /\ (b = [] \/ b = [SPACE]).
Proof.
  unfold sanitize, sanitize_spec, strip.
  set (x := sub_ws (sub_angle (sub_brace text))).
  destruct (lstrip_single_spaced x (ws_scan_single_spaced false _))
    as (a & Ha & Hacase & Hl).
  destruct (rstrip_single_spaced (lstrip x) false Hl) as (b & Hb & Hbcase).
  exists a, b. repeat split; auto. now rewrite <- Hb.
Qed.

(** C2, as the claim words it, fails: the replacement of a leading span
    leaves a space that nothing trims. *)
Lemma cleaning_does_not_trim : ~ cleaning_trims.
Proof.
  intros H. specialize (H (str "{x} a")). vm_compute in H. discriminate.
Qed.

Lemma sub_span_equations o c :
  (NL =? c)%N = false -> replaces_spans o c (sub_span o c).
Proof.
  intros Hnl. unfold replaces_spans. split; [reflexivity|]. split; [|split].
  - intros x s Hx. unfold sub_span. simpl. now rewrite Hx.
  - intros body rest Hc Hn.
    apply (sub_span_replaced o c [] body rest eq_refl Hc Hn).
  - intros mid tail Hc Hn Ht. unfold sub_span. simpl.
    now rewrite N.eqb_refl, (span_len_none c mid tail Hnl Hc Hn Ht).
Qed.

Lemma ws_scan_after_run run rest :
  forallb is_space run = true -> starts_visible rest = true ->
  ws_scan true (run ++ rest) = ws_scan false rest.
Proof.
  intros Hrun Hrest. induction run as [|x run IH]; simpl.
  - destruct rest as [|c rest]; [reflexivity|]. simpl in *.
    apply negb_true_iff in Hrest. now rewrite Hrest.
  - simpl in Hrun. apply andb_prop in Hrun as [Hx Hrun].
    rewrite Hx. now apply IH.
Qed.

Lemma sub_ws_equations : collapses_runs sub_ws.
Proof.
  unfold collapses_runs, sub_ws. split; [reflexivity|]. split.
  - intros x s Hx. simpl. now rewrite Hx.
  - intros run rest Hne Hrun Hrest.
    destruct run as [|x run]; [congruence|]. simpl in *.
    apply andb_prop in Hrun as [Hx Hrun]. rewrite Hx.
    f_equal. now apply ws_scan_after_run.
Qed.

Lemma ws_scan_trailing c s :
  is_space c = true ->
  forall b,
    (exists r, ws_scan b (s ++ [c]) = r ++ [SPACE])
    \/ (b = true /\ ws_scan b (s ++ [c]) = []).
Proof.
  intros Hc. induction s as [|x s IH]; intros b; simpl.
  - rewrite Hc. destruct b; [now right|]. left. now exists [].
  - destruct (is_space x).
    + destruct b.
      * destruct (IH true) as [[r Hr]|[_ Hr]]; [left; now exists r|now right].
      * left. destruct (IH true) as [[r Hr]|[_ Hr]]; rewrite Hr.
        -- now exists (SPACE :: r).
        -- now exists [].
    + left. destruct (IH false) as [[r Hr]|[Hb _]]; [|discriminate].
      rewrite Hr. now exists (x :: r).
Qed.

(** Whitespace at either end of the text is not trimmed: one space stands
    for it. *)
Lemma sub_ws_keeps_the_ends s c :
  is_space c = true ->
  (exists r, sub_ws (c :: s) = SPACE :: r)
  /\ (exists r, sub_ws (s ++ [c]) = r ++ [SPACE]).
Proof.
  intros Hc. split.
  - unfold sub_ws. simpl. rewrite Hc. now eexists.
  - destruct (ws_scan_trailing c s Hc false) as [H|[Hb _]];
      [exact H|discriminate].
Qed.

Lemma span_len_split c s :
  match span_len c s with
  | Some _ =>
      exists body rest,
        s = body ++ c :: rest /\ lacks c body = true /\ lacks NL body = true
  | None =>
      exists mid tail,
        s = mid ++ tail /\ lacks c mid = true /\ lacks NL mid = true
        /\ at_line_end tail = true
  end.
Proof.
  induction s as [|x s IH]; simpl.
  - now exists [], [].
  - destruct (x =? c)%N eqn:Exc.
    + apply N.eqb_eq in Exc. subst x. now exists [], s.
    + destruct (x =? NL)%N eqn:Exn.
      * exists [], (x :: s). simpl. now rewrite Exn.
      * destruct (span_len c s) as [k|]; simpl.
        -- destruct IH as (body & rest & -> & Hc & Hn).
           exists (x :: body), rest. unfold lacks in *. simpl.
           now rewrite Exc, Exn, Hc, Hn.
        -- destruct IH as (mid & tail & -> & Hc & Hn & Ht).
           exists (x :: mid), tail. unfold lacks in *. simpl.
           now rewrite Exc, Exn, Hc, Hn.
Qed.

(** The equations of [replaces_spans] leave no choice: a function that
    meets them is the replacement of the code. *)
Lemma replaces_spans_unique o c f :
  replaces_spans o c f -> (NL =? c)%N = false ->
  forall s, f s = sub_span o c s.
Proof.
  intros (F0 & F1 & F2 & F3) Hnl.
  destruct (sub_span_equations o c Hnl) as (G0 & G1 & G2 & G3).
  assert (H : forall n s, (length s <= n)%nat -> f s = sub_span o c s).
  { induction n as [|n IH]; intros s Hlen.
    - destruct s; [now rewrite F0, G0|simpl in Hlen; lia].
    - destruct s as [|x s]; [now rewrite F0, G0|]. simpl in Hlen.
      destruct (x =? o)%N eqn:Exo.
      + apply N.eqb_eq in Exo. subst x.
        pose proof (span_len_split c s) as Hsplit.
        destruct (span_len c s) as [k|].
        * destruct Hsplit as (body & rest & -> & Hc & Hn).
          rewrite (F2 body rest Hc Hn), (G2 body rest Hc Hn). f_equal.
          apply IH. rewrite length_app in Hlen. simpl in Hlen. lia.
        * destruct Hsplit as (mid & tail & -> & Hc & Hn & Ht).
          rewrite (F3 mid tail Hc Hn Ht), (G3 mid tail Hc Hn Ht). f_equal.
          apply IH. lia.
      + rewrite (F1 x s Exo), (G1 x s Exo). f_equal. apply IH. lia. }
  intros s. now apply (H (length s)).
Qed.

Lemma run_split s :
  exists run rest,
    s = run ++ rest /\ forallb is_space run = true
    /\ starts_visible rest = true.
Proof.
  induction s as [|x s IH].
  - now exists [], [].
  - destruct (is_space x) eqn:Ex.
    + destruct IH as (run & rest & -> & Hrun & Hrest).
      exists (x :: run), rest. simpl. now rewrite Ex, Hrun.
    + exists [], (x :: s). simpl. now rewrite Ex.
Qed.

(** The equations of [collapses_runs] leave no choice either. *)
Lemma collapses_runs_unique f :
  collapses_runs f -> forall s, f s = sub_ws s.
Proof.
  intros (F0 & F1 & F2).
  destruct sub_ws_equations as (G0 & G1 & G2).
  assert (H : forall n s, (length s <= n)%nat -> f s = sub_ws s).
  { induction n as [|n IH]; intros s Hlen.
    - destruct s; [now rewrite F0, G0|simpl in Hlen; lia].
    - destruct s as [|x s]; [now rewrite F0, G0|]. simpl in Hlen.
      destruct (is_space x) eqn:Ex.
      + destruct (run_split s) as (run & rest & -> & Hrun & Hrest).
        change (x :: run ++ rest) with ((x :: run) ++ rest).
        assert (Hne : x :: run <> []) by discriminate.
        assert (Hall : forallb is_space (x :: run) = true)
          by (simpl; now rewrite Ex, Hrun).
        rewrite (F2 _ rest Hne Hall Hrest), (G2 _ rest Hne Hall Hrest).
        f_equal. apply IH. rewrite length_app in Hlen. lia.
      + rewrite (F1 x s Ex), (G1 x s Ex). f_equal. apply IH. lia. }
  intros s. now apply (H (length s)).
Qed.

(** C2 (amended): the cleaning replaces each [{...}] and each [<...>] span
    that lies on one line by one space, the braces first, then collapses each
    run of whitespace to one space; it does not trim, so that whitespace at
    either end of the text is left as one space; and
    [sanitize("a {x} b   c") == "a b c"]. *)
Theorem sanitize_replaces_and_collapses :
  (forall pre body rest,
      lacks LBRACE pre = true -> lacks RBRACE body = true ->
      lacks NL body = true ->
      sub_brace (pre ++ LBRACE :: body ++ RBRACE :: rest)
      = pre ++ SPACE :: sub_brace rest)
  /\ (forall pre body rest,
      lacks LANGLE pre = true -> lacks RANGLE body = true ->
      lacks NL body = true ->
      sub_angle (pre ++ LANGLE :: body ++ RANGLE :: rest)
      = pre ++ SPACE :: sub_angle rest)
  /\ (forall text, sanitize text = sub_ws (sub_angle (sub_brace text)))
  /\ (forall s, single_spaced false (sub_ws s) = true
                /\ visible (sub_ws s) = visible s)
  /\ (forall text, exists a b,
         sanitize text = a ++ strip (sanitize text) ++ b
         /\ (a = [] \/ a = [SPACE]) /\ (b = [] \/ b = [SPACE]))
  /\ sanitize (str "a {x} b   c") = str "a b c"
  /\ replaces_spans LBRACE RBRACE sub_brace
  /\ replaces_spans LANGLE RANGLE sub_angle
  /\ collapses_runs sub_ws
  /\ (forall s c,
         is_space c = true ->
         (exists r, sub_ws (c :: s) = SPACE :: r)
         /\ (exists r, sub_ws (s ++ [c]) = r ++ [SPACE]))
  /\ (forall text c,
         is_space c = true ->
         lacks LBRACE text = true -> lacks LANGLE text = true ->
         (exists r, sanitize (c :: text) = SPACE :: r)
         /\ (exists r, sanitize (text ++ [c]) = r ++ [SPACE])).
Proof.
  repeat match goal with |- _ /\ _ => split end.
  - intros. now apply sub_span_replaced.
  - intros. now apply sub_span_replaced.
  - reflexivity.
  - intros s. split; [apply ws_scan_single_spaced|apply ws_scan_visible].
  - apply sanitize_untrimmed.
  - reflexivity.
  - apply (sub_span_equations LBRACE RBRACE eq_refl).
  - apply (sub_span_equations LANGLE RANGLE eq_refl).
  - apply sub_ws_equations.
  - apply sub_ws_keeps_the_ends.
  - intros text c Hc Hb Ha.
    assert (Hplain : forall t, lacks LBRACE t = true -> lacks LANGLE t = true ->
                               sanitize t = sub_ws t).
    { intros t H1 H2. unfold sanitize, sub_brace, sub_angle, sub_span.
      assert (Hid : forall o cl u, lacks o u = true -> sub_scan o cl 0 u = u).
      { intros o cl u. induction u as [|x u IH]; [reflexivity|].
        intros [Hx Hu]%lacks_cons. simpl. rewrite Hx. f_equal. now apply IH. }
      now rewrite (Hid _ _ _ H1), (Hid _ _ _ H2). }
    assert (Hcb : (c =? LBRACE)%N = false /\ (c =? LANGLE)%N = false).
    { split; apply N.eqb_neq; intros ->; vm_compute in Hc; discriminate. }
    destruct Hcb as [Hcb Hca].
    assert (Hl : forall o, (c =? o)%N = false -> lacks o text = true ->
                           lacks o (c :: text) = true
                           /\ lacks o (text ++ [c]) = true).
    { intros o Hco Ht. unfold lacks in *. split.
      - simpl. now rewrite Hco, Ht.
      - rewrite forallb_app, Ht. simpl. now rewrite Hco. }
    rewrite !Hplain by (apply Hl; auto).
    now apply sub_ws_keeps_the_ends.
Qed.

Lemma sanitize_replaces_and_collapses_witness :
  sub_brace (str "a " ++ LBRACE :: str "x" ++ RBRACE :: str " b")
  = str "a " ++ SPACE :: sub_brace (str " b")
  /\ sub_angle (str "a " ++ LANGLE :: str "x" ++ RANGLE :: str " b")
     = str "a " ++ SPACE :: sub_angle (str " b")
  /\ sub_ws (str "  " ++ str "a") = SPACE :: sub_ws (str "a")
  /\ (exists r, sanitize (str "a" ++ [9%N]) = r ++ [SPACE]).
Proof.
  destruct sanitize_replaces_and_collapses
    as (H1 & H2 & _ & _ & _ & _ & _ & _ & (_ & _ & H3) & _ & H4).
  split; [apply H1; reflexivity|].
  split; [apply H2; reflexivity|].
  split; [apply H3; [discriminate|reflexivity|reflexivity]|].
  apply (H4 (str "a") 9%N); reflexivity.
Defined.

Lemma at_line_end_sub_span open close tail :
  (NL =? open)%N = false ->
  at_line_end tail = true -> at_line_end (sub_span open close tail) = true.
Proof.
  intros Ho. destruct tail as [|c tail]; [reflexivity|]. simpl.
  intros ->%N.eqb_eq. unfold sub_span. simpl. now rewrite Ho.
Qed.

Lemma opener_cases o :
  is_opener o = true -> o = LBRACE \/ o = LANGLE.
Proof.
  unfold is_opener. intros [H|H]%orb_prop; apply N.eqb_eq in H; auto.
Qed.

(** C10, as the claim words it, fails: an opening brace without closing
    brace is removed together with the angle span around it. *)
Lemma unmatched_opener_removed : ~ unmatched_opener_kept.
Proof.
  intros H.
  destruct (H (str "<a ") LBRACE (str " b>") eq_refl eq_refl) as [out E].
  vm_compute in E.
  destruct out as [|x [|y out]]; discriminate.
Qed.

(** C10 (amended): when an opening [{] or [<] is followed, up to the end of
    its line, by no closing bracket of either kind, the bracket stays in the
    cleaned text and so does the rest of its line, up to the collapsing of
    whitespace; what comes before it and what comes after the line are
    cleaned as usual. *)
Theorem unmatched_opener_kept_on_its_line pre o line tail :
  is_opener o = true ->
  lacks RBRACE line = true -> lacks RANGLE line = true ->
  lacks NL line = true -> at_line_end tail = true ->
  sanitize (pre ++ o :: line ++ tail)
  = sanitize pre ++ o :: sub_ws (line ++ sub_angle (sub_brace tail)).
Proof.
  intros Ho Hb Ha Hn Ht. unfold sanitize, sub_brace, sub_angle.
  assert (Hmid : forall c, (o =? c)%N = false -> lacks c line = true ->
                           lacks c (o :: line) = true).
  { intros c Hc Hl. unfold lacks in *. simpl. now rewrite Hc, Hl. }
  assert (Hsp : is_space o = false /\ (o =? RBRACE)%N = false
                /\ (o =? RANGLE)%N = false /\ (o =? NL)%N = false).
  { destruct (opener_cases o Ho) as [-> | ->]; repeat split; reflexivity. }
  destruct Hsp as (Hs & Hrb & Hra & Hnl).
  change (pre ++ o :: line ++ tail) with (pre ++ (o :: line) ++ tail).
  rewrite sub_span_kept by auto.
  rewrite sub_span_kept
    by (auto using at_line_end_sub_span).
  simpl. unfold sub_ws. now rewrite ws_scan_app_visible.
Qed.

Lemma unmatched_opener_kept_on_its_line_witness :
  sanitize (str "a " ++ LBRACE :: str "b  <c" ++ NL :: str "{d}")
  = sanitize (str "a ") ++ LBRACE
      :: sub_ws (str "b  <c" ++ sub_angle (sub_brace (NL :: str "{d}"))).
Proof.
  apply (unmatched_opener_kept_on_its_line
           (str "a ") LBRACE (str "b  <c") (NL :: str "{d}"));
    reflexivity.
Defined.

(** ** The module prelude *)

(** C5: the step that pins the thread pools does not complete: [os] is
    never imported, and line 18 raises [NameError] before either variable is
    set and before [main] can start a worker. *)
Theorem prelude_raises_NameError :
  forall env,
    Startup.exec_all Startup.prelude (Startup.start env)
    = Raise (NameError (str "os")).
Proof. intros env. reflexivity. Qed.

(** With [import os] in front, as [tools/vqgan/create_train_split.py] has
    it, the same prelude completes and pins both pools. *)
Lemma prelude_with_import_os env :
  exists st,
    Startup.exec_all (Startup.Import (str "os") :: Startup.prelude)
                     (Startup.start env) = Ok st
    /\ Startup.getenv (str "MKL_NUM_THREADS") (Startup.environ st)
       = Some (str "1")
    /\ Startup.getenv (str "OMP_NUM_THREADS") (Startup.environ st)
       = Some (str "1").
Proof. eexists. repeat split. Qed.

(** ** The command line *)

(** C8, as the claim words it, fails: with both options given the run goes
    through. *)
Lemma both_sources_accepted : ~ both_sources_rejected.
Proof.
  intros H.
  destruct (H quiet_world
              (mkCli (Some (str "c.yaml")) None (Some (str "list.txt")) None)
              _ _ eq_refl eq_refl) as [e He].
  vm_compute in He. discriminate.
Qed.

(** C8 (amended): every run uses exactly one of the two sources, the
    manifest when [--filelist] is given and the configuration (or its
    default) otherwise; a command line that gives both is accepted and runs
    as if the configuration had not been given. *)
Theorem main_prefers_filelist :
  forall w,
    (forall c,
        generator_fn w (click_options c)
        = match opt_filelist c with
          | Some fl => task_generator_filelist w fl
          | None =>
              task_generator_yaml w
                (or_default (opt_config c)
                            (str "fish_speech/configs/data/finetune.yaml"))
          end)
    /\ (forall cfg out fl n,
           main w (mkCli (Some cfg) out (Some fl) n)
           = main w (mkCli None out (Some fl) n)).
Proof.
  intros w. split.
  - intros [cfg out [fl|] n]; reflexivity.
  - reflexivity.
Qed.

(** ** Group discovery *)

(** C9: an integer [group_parent_level] is handled as the list holding that
    one index: the groups are the same, and the key of a file is the name of
    the ancestor at that index, nothing joined to it. *)
Theorem single_level_is_one_element_list :
  forall level,
    (forall found,
        group_files (PLInt level) found = group_files (PLList [level]) found)
    /\ (forall file,
           group_key (normalize_level (PLInt level)) file
           = index (all_parents file) (level - 1))
    /\ (forall w root src langs ext rest,
           generate_rows w (mkDataset root src langs ext (PLInt level) :: rest)
           = generate_rows w
               (mkDataset root src langs ext (PLList [level]) :: rest)).
Proof.
  intros level. split; [|split].
  - reflexivity.
  - intros file. unfold group_key. simpl.
    destruct (index (all_parents file) (level - 1)); reflexivity.
  - reflexivity.
Qed.

(** *** Orders *)

Section StrictOrder.
Variable A : Type.
Variable ltb : A -> A -> bool.
Hypothesis ltb_irrefl : forall x, ltb x x = false.
Hypothesis ltb_trans :
  forall x y z, ltb x y = true -> ltb y z = true -> ltb x z = true.
Hypothesis ltb_total :
  forall x y, ltb x y = false -> ltb y x = false -> x = y.



Lemma insert_perm x l : Permutation (insert ltb x l) (x :: l).
Proof.
  induction l as [|y l IH]; simpl; [reflexivity|].
  destruct (ltb y x); [|reflexivity].
  rewrite IH. apply perm_swap.
Qed.

Lemma sorted_perm l : Permutation (sorted ltb l) l.
Proof.
  induction l as [|x l IH]; simpl; [reflexivity|].
  rewrite insert_perm. now apply perm_skip.
Qed.




End StrictOrder.

Section Lexicographic.
Variable A : Type.
Variables eqb ltb : A -> A -> bool.
Hypothesis eqb_eq : forall x y, eqb x y = true <-> x = y.
Hypothesis ltb_irrefl : forall x, ltb x x = false.
Hypothesis ltb_trans :
  forall x y z, ltb x y = true -> ltb y z = true -> ltb x z = true.
Hypothesis ltb_total :
  forall x y, ltb x y = false -> ltb y x = false -> x = y.

Lemma eqb_refl x : eqb x x = true.
Proof. now apply eqb_eq. Qed.



End Lexicographic.

Lemma pystr_eqb_eq a b : pystr_eqb a b = true <-> a = b.
Proof.
  unfold pystr_eqb. destruct (list_eq_dec N.eq_dec a b); split; congruence.
Qed.

Lemma pystr_eqb_refl a : pystr_eqb a a = true.
Proof. now apply pystr_eqb_eq. Qed.

Lemma pystr_eqb_sym a b : pystr_eqb a b = pystr_eqb b a.
Proof.
  destruct (pystr_eqb a b) eqn:E, (pystr_eqb b a) eqn:F; auto.
  - apply pystr_eqb_eq in E. subst. now rewrite pystr_eqb_refl in F.
  - apply pystr_eqb_eq in F. subst. now rewrite pystr_eqb_refl in E.
Qed.








(** *** Ancestors and keys *)

Lemma parents_loop_fuel fuel :
  forall pointer acc,
    (length pointer <= fuel)%nat ->
    parents_loop fuel pointer acc = parents_loop (length pointer) pointer acc.
Proof.
  induction fuel as [|n IH]; intros pointer acc Hlen.
  - destruct pointer; [reflexivity|simpl in Hlen; lia].
  - destruct (length pointer) as [|m] eqn:El.
    + apply length_zero_iff_nil in El. subst. reflexivity.
    + simpl. destruct (truthy (Pathlib.name (parent pointer))); [|reflexivity].
      assert (Hp : length (parent pointer) = m).
      { unfold parent. rewrite removelast_firstn_len, length_firstn. lia. }
      rewrite IH by lia. now rewrite Hp.
Qed.

Lemma parents_loop_closed fuel :
  forall pointer acc,
    well_formed pointer -> (length pointer <= fuel)%nat ->
    parents_loop fuel pointer acc = acc ++ rev (parent pointer).
Proof.
  induction fuel as [|n IH]; intros pointer acc Hwf Hlen.
  - destruct pointer; [simpl; now rewrite app_nil_r|simpl in Hlen; lia].
  - simpl. unfold Pathlib.name.
    destruct (parent pointer) as [|c q] eqn:Eq.
    + simpl. now rewrite app_nil_r.
    + assert (Hne : c :: q <> []) by discriminate.
      assert (Hsub : forall x, In x (c :: q) -> In x pointer).
      { intros x Hx. rewrite <- Eq in Hx. unfold parent in Hx.
        destruct pointer as [|p0 ps]; [contradiction|].
        rewrite (app_removelast_last [] (l := p0 :: ps)) by discriminate.
        apply in_or_app. now left. }
      assert (Hlast : truthy (last (c :: q) []) = true).
      { unfold well_formed in Hwf. rewrite Forall_forall in Hwf.
        apply Hwf, Hsub.
        rewrite (app_removelast_last [] Hne) at 2.
        apply in_or_app. right. now left. }
      rewrite Hlast, IH.
      * rewrite (app_removelast_last [] Hne) at 3.
        rewrite rev_app_distr. simpl. unfold parent.
        now rewrite <- app_assoc.
      * unfold well_formed in *. rewrite Forall_forall in *. auto.
      * assert (length (parent pointer) = length pointer - 1)%nat.
        { unfold parent. rewrite removelast_firstn_len, length_firstn. lia. }
        rewrite Eq in *. lia.
Qed.

(** The ancestors of a file, the nearest first. *)
Lemma all_parents_closed file :
  well_formed file -> all_parents file = rev (parent file).
Proof.
  intros Hwf. unfold all_parents. now rewrite parents_loop_closed.
Qed.


Lemma index_beyond {A} (l : list A) (i : Z) :
  (Z.of_nat (length l) <= i)%Z -> index l i = Raise IndexError.
Proof.
  intros Hi. unfold index.
  destruct (i <? 0)%Z eqn:E1; [apply Z.ltb_lt in E1; lia|].
  rewrite E1.
  destruct (Z.of_nat (length l) <=? i)%Z eqn:E2;
    [reflexivity|apply Z.leb_gt in E2; lia].
Qed.

Lemma index_raises {A} (l : list A) (i : Z) e :
  index l i = Raise e -> e = IndexError.
Proof.
  unfold index.
  destruct (_ || _); [congruence|]. destruct (nth_error _ _); congruence.
Qed.


Lemma select_raises parents levels e :
  select parents levels = Raise e -> e = IndexError.
Proof.
  induction levels as [|l levels IH]; simpl; [discriminate|].
  destruct (index parents (l - 1)) eqn:E; simpl.
  - destruct (select parents levels); simpl; [discriminate|].
    intros [= <-]. now apply IH.
  - intros [= <-]. now apply index_raises in E.
Qed.

Lemma select_beyond parents levels level :
  In level levels -> (Z.of_nat (length parents) < level)%Z ->
  select parents levels = Raise IndexError.
Proof.
  intros Hin Hl. induction levels as [|l levels IH]; [contradiction|].
  simpl. destruct Hin as [->|Hin].
  - rewrite index_beyond by lia. reflexivity.
  - destruct (index parents (l - 1)) eqn:E; simpl.
    + now rewrite IH.
    + now apply index_raises in E as ->.
Qed.

Lemma group_key_raises levels file e :
  group_key levels file = Raise e -> e = IndexError.
Proof.
  unfold group_key. destruct (select _ _) eqn:E; simpl; [discriminate|].
  intros [= <-]. now apply select_raises in E.
Qed.

(** *** The dictionary of groups *)

Section Dict.
Variable V : Type.
Implicit Types (d : list (pystr * list V)) (v : V).

Lemma dict_get_append key v d k :
  dict_get k (dict_append key v d)
  = if pystr_eqb key k then dict_get k d ++ [v] else dict_get k d.
Proof.
  induction d as [|[k0 vs] d IH]; simpl.
  - now destruct (pystr_eqb key k).
  - destruct (pystr_eqb k0 key) eqn:E; simpl.
    + apply pystr_eqb_eq in E. subst k0. now destruct (pystr_eqb key k).
    + rewrite IH. destruct (pystr_eqb k0 k) eqn:F; [|reflexivity].
      apply pystr_eqb_eq in F. subst k0.
      now rewrite pystr_eqb_sym, E.
Qed.

Lemma dict_append_keys_in key v d k :
  In k (map fst (dict_append key v d)) -> k = key \/ In k (map fst d).
Proof.
  induction d as [|[k0 vs] d IH]; simpl.
  - intros [<-|[]]. now left.
  - destruct (pystr_eqb k0 key); simpl; [tauto|].
    intros [<-|Hk]; [tauto|]. destruct (IH Hk); tauto.
Qed.

Lemma dict_append_keys key v d :
  NoDup (map fst d) -> NoDup (map fst (dict_append key v d)).
Proof.
  induction d as [|[k0 vs] d IH]; simpl; intros Hnd.
  - repeat constructor. intros [].
  - destruct (pystr_eqb k0 key) eqn:E; simpl; [exact Hnd|].
    inversion Hnd as [|? ? Hk0 Hnd']; subst.
    constructor; [|now apply IH].
    intros Hk. destruct (dict_append_keys_in _ _ _ _ Hk) as [->|Hk'];
      [|contradiction].
    now rewrite pystr_eqb_refl in E.
Qed.

Lemma dict_get_in k vs d :
  NoDup (map fst d) -> In (k, vs) d -> dict_get k d = vs.
Proof.
  induction d as [|[k0 vs0] d IH]; simpl; [contradiction|].
  intros Hnd [[= -> ->]|Hin].
  - now rewrite pystr_eqb_refl.
  - inversion Hnd as [|? ? Hk0 Hnd']; subst.
    destruct (pystr_eqb k0 k) eqn:E; [|now apply IH].
    apply pystr_eqb_eq in E. subst k0.
    exfalso. apply Hk0. now apply (in_map fst) in Hin.
Qed.

Lemma dict_append_nonempty key v d :
  Forall (fun g => snd g <> []) d ->
  Forall (fun g => snd g <> []) (dict_append key v d).
Proof.
  induction 1 as [|[k0 vs] d Hg Hd IH]; simpl.
  - repeat constructor. discriminate.
  - destruct (pystr_eqb k0 key); constructor; auto.
    simpl. now destruct vs.
Qed.

Lemma dict_append_all (P : V -> Prop) key v d :
  P v ->
  Forall (fun g => Forall P (snd g)) d ->
  Forall (fun g => Forall P (snd g)) (dict_append key v d).
Proof.
  intros Hv. induction 1 as [|[k0 vs] d Hg Hd IH]; simpl.
  - repeat constructor. exact Hv.
  - destruct (pystr_eqb k0 key); constructor; auto.
    simpl in *. apply Forall_app. auto.
Qed.
End Dict.

Lemma grouping_invariant levels files :
  forall d0 d,
    grouping levels files d0 = Ok d ->
    NoDup (map fst d0) -> Forall (fun g => snd g <> []) d0 ->
    NoDup (map fst d) /\ Forall (fun g => snd g <> []) d
    /\ forall k, dict_get k d
                 = dict_get k d0 ++ filter (in_group levels k) files.
Proof.
  induction files as [|file files IH]; intros d0 d; simpl.
  - intros [= <-] Hnd Hne. repeat split; auto. intros k. now rewrite app_nil_r.
  - destruct (group_key levels file) as [p|e] eqn:E; simpl; [|discriminate].
    intros Hg Hnd Hne.
    destruct (IH _ _ Hg (dict_append_keys _ p file d0 Hnd)
                 (dict_append_nonempty _ p file d0 Hne)) as (H1 & H2 & H3).
    repeat split; auto. intros k. rewrite H3, dict_get_append.
    unfold in_group at 2. rewrite E.
    destruct (pystr_eqb p k); [|reflexivity]. now rewrite <- app_assoc.
Qed.


Lemma grouping_beyond levels files file level :
  In file files -> In level levels -> (depth file < level)%Z ->
  forall d0, grouping levels files d0 = Raise IndexError.
Proof.
  intros Hf Hl Hd. induction files as [|f files IH]; [contradiction|].
  intros d0. simpl. destruct (group_key levels f) as [p|e] eqn:E; simpl.
  - destruct Hf as [->|Hf]; [|now apply IH].
    unfold group_key in E.
    rewrite (select_beyond _ levels level Hl Hd) in E. discriminate.
  - now apply group_key_raises in E as ->.
Qed.

Lemma group_files_beyond parent_level found file level :
  In file found -> In level (normalize_level parent_level) ->
  (depth file < level)%Z ->
  group_files parent_level found = Raise IndexError.
Proof.
  intros Hf Hl Hd. unfold group_files.
  apply grouping_beyond with file level; auto.
  apply (Permutation_in _ (Permutation_sym
           (sorted_perm _ path_ltb found))). exact Hf.
Qed.

Lemma generate_rows_app w before :
  forall tasks rest,
    generate_rows w before = mkGenerated tasks None ->
    generate_rows w (before ++ rest)
    = mkGenerated (tasks ++ emitted (generate_rows w rest))
                  (raised (generate_rows w rest)).
Proof.
  induction before as [|row before IH]; intros tasks rest; simpl.
  - intros [= <-]. now destruct (generate_rows w rest).
  - destruct (group_files _ _) as [groups|e]; [|discriminate].
    destruct (generate_rows w before) as [ts r] eqn:E. simpl.
    intros [= <- ->]. rewrite (IH ts rest eq_refl). simpl.
    now rewrite app_assoc.
Qed.




(** C3, as the claim words it, fails: the group of the first dataset is
    yielded before the index of the second one is found too large. *)
Lemma group_emitted_before_failure : ~ fails_fast.
Proof.
  intros H. specialize (H (tree_world false) two_datasets).
  assert (Hex : exists row, In row two_datasets
                            /\ exceeds_depth (tree_world false) row).
  { eexists. split; [right; left; reflexivity|].
    exists [str "b"; str "g.npy"], 2%Z. vm_compute. intuition congruence. }
  destruct (H Hex) as [e He]. vm_compute in He. discriminate.
Qed.

(** C3 (amended): in tree mode an index larger than the depth of a file of
    a dataset ends the generator with [IndexError] before any group of that
    dataset, or of a dataset after it, is yielded; the groups of the datasets
    before it have been yielded by then.  When the dataset is the first one,
    nothing is yielded. *)
Theorem bad_level_fails_dataset :
  forall w config before row after tasks,
    yaml_load w config = Ok (before ++ row :: after) ->
    generate_rows w before = mkGenerated tasks None ->
    exceeds_depth w row ->
    task_generator_yaml w config = mkGenerated tasks (Some IndexError)
    /\ (before = [] -> tasks = []).
Proof.
  intros w config before row after tasks Hcfg Hbefore (file & level & Hf & Hl & Hd).
  split.
  - unfold task_generator_yaml. rewrite Hcfg.
    rewrite (generate_rows_app w before tasks _ Hbefore). simpl.
    rewrite (group_files_beyond _ _ file level Hf Hl Hd). simpl.
    now rewrite app_nil_r.
  - intros ->. simpl in Hbefore. congruence.
Qed.

Lemma bad_level_fails_dataset_witness :
  exists tasks,
    length tasks = 2%nat
    /\ task_generator_yaml (tree_world false) (str "c.yaml")
       = mkGenerated tasks (Some IndexError).
Proof.
  eexists. split; [|
    apply (bad_level_fails_dataset (tree_world false) (str "c.yaml")
             [mkDataset (str "a") (str "A") [str "en"] (Some (str ".lab"))
                        (PLList [1%Z])]
             (mkDataset (str "b") (str "B") [str "en"] (Some (str ".lab"))
                        (PLList [2%Z]))
             []);
    [reflexivity|vm_compute; reflexivity|
     exists [str "b"; str "g.npy"], 2%Z; vm_compute; intuition congruence]].
  reflexivity.
Defined.

(** ** RecordBuilder *)

Lemma unpack_parts languages m :
  unpack languages m
  = (member_file m, member_text m, languages_after languages m).
Proof. now destruct m. Qed.




Lemma resolve_text_none w extension file text :
  resolve_text w extension file text = Ok None ->
  text = None
  /\ exists txt_file, with_suffix file extension = Ok txt_file
                      /\ exists_ w txt_file = false.
Proof.
  unfold resolve_text. destruct text as [t|]; [discriminate|].
  destruct (with_suffix file extension) as [txt|e]; simpl; [|discriminate].
  destruct (exists_ w txt) eqn:E; simpl.
  - destruct (read_text w txt); simpl; discriminate.
  - intros _. split; [reflexivity|]. now exists txt.
Qed.

(** Each outcome is what one round of the loop does. *)
Lemma member_outcome_sound w extension languages m st :
  member_outcome w extension languages m st ->
  process w extension languages m = Ok (languages_after languages m, st).
Proof.
  intros H. unfold process. rewrite unpack_parts.
  destruct H as [np Hnp Hex | np txt Hnp Hex Htext Htxt Hex'
                 | np t e Hnp Hex Ht Hg | np t ph e Hnp Hex Ht Hg Hl
                 | np t ph v s Hnp Hex Ht Hg Hl Hs];
    rewrite Hnp; simpl; rewrite Hex; simpl; try reflexivity.
  - rewrite Htext. simpl. rewrite Htxt. simpl. rewrite Hex'. reflexivity.
  - rewrite Ht. simpl. unfold parse. rewrite Hg. reflexivity.
  - rewrite Ht. simpl. unfold parse. rewrite Hg. simpl. rewrite Hl. reflexivity.
  - rewrite Ht. simpl. unfold parse. rewrite Hg. simpl. rewrite Hl. simpl.
    rewrite Hs. reflexivity.
Qed.


Lemma group_outcome_sound w extension languages subset sents languages' :
  group_outcome w extension languages subset sents languages' ->
  forall acc,
    loop w extension subset languages acc = Ok (acc ++ sents, languages').
Proof.
  induction 1 as [languages | languages m rest sents languages' Hm _ IH
                  | languages m s rest sents languages' Hm _ IH];
    intros acc; simpl.
  - now rewrite app_nil_r.
  - rewrite (member_outcome_sound _ _ _ _ _ Hm). simpl. apply IH.
  - rewrite (member_outcome_sound _ _ _ _ _ Hm). simpl. rewrite IH.
    now rewrite <- app_assoc.
Qed.


Lemma run_task_record_outcome w task sents languages' :
  group_outcome w (task_extension task) (task_languages task)
                (task_subset task) sents languages' ->
  run_task_record w task
  = Ok (mkTextData (task_source task) (task_name task) languages' sents).
Proof.
  intros H. unfold run_task_record.
  now rewrite (group_outcome_sound _ _ _ _ _ _ H []).
Qed.




Lemma mapM_in {A B} (f : A -> result B) (l : list A) :
  forall ys, mapM f l = Ok ys ->
             forall x, In x l -> exists y, f x = Ok y /\ In y ys.
Proof.
  induction l as [|a l IH]; intros ys; simpl; [intros _ x []|].
  destruct (f a) as [b|e] eqn:Ea; simpl; [|discriminate].
  destruct (mapM f l) as [bs|e]; simpl; [|discriminate].
  intros [= <-] x [<-|Hx].
  - exists b. split; [exact Ea|now left].
  - destruct (IH bs eq_refl x Hx) as (y & Hy & Hin).
    exists y. split; [exact Hy|now right].
Qed.

Lemma group_outcome_all_skipped w extension subset :
  Forall (fun m => forall languages,
              member_outcome w extension languages m Continue) subset ->
  forall languages,
    group_outcome w extension languages subset []
                  (fold_left languages_after subset languages).
Proof.
  induction 1 as [|m rest Hm _ IH]; intros languages; simpl.
  - constructor.
  - apply group_skip; [apply Hm|apply IH].
Qed.

(** C6, as the claim words it, fails: with a sidecar suffix that lacks its
    dot, line 89 raises [ValueError] and the group gives no record. *)
Lemma invalid_suffix_gives_no_record : ~ every_group_yields_a_record.
Proof.
  intros H.
  destruct (H (manifest_world codes)
              (mkTask (str "s1") [MPath [str "a"; str "s1"; str "f.npy"]]
                      (str "A") [str "en"] (Some (str "lab"))))
    as (sents & langs & Hloop & _).
  vm_compute in Hloop. discriminate.
Qed.

(** C6 (amended): for every group whose members are each taken to their
    end, appended or skipped, [run_task] returns exactly one record, which
    holds the accumulated sentence list, serialized by [pack_pb_stream]; this
    includes the group in which every member failed and was skipped, whose
    record has an empty sentence list; and a run of [main] that ends normally
    has written the result of every task, each once, in the order the tasks
    completed. *)
Theorem every_processed_group_is_written :
  (forall w task sents languages',
      group_outcome w (task_extension task) (task_languages task)
                    (task_subset task) sents languages' ->
      run_task w task
      = Ok (pack_pb_stream w
              (mkTextData (task_source task) (task_name task)
                          languages' sents)))
  /\ (forall w task,
         Forall (fun m => forall languages,
                     member_outcome w (task_extension task) languages m Continue)
                (task_subset task) ->
         exists languages',
           run_task w task
           = Ok (pack_pb_stream w
                   (mkTextData (task_source task) (task_name task)
                               languages' [])))
  /\ (forall w a frames,
         results w a = Ok frames ->
         (forall task, In task (emitted (generator_fn w a)) ->
                       exists frame, run_task w task = Ok frame
                                     /\ In frame frames)
         /\ length frames = length (emitted (generator_fn w a))
         /\ main_writes w a (concat frames)
         /\ (forall out, main_writes w a out ->
                         exists order, Permutation frames order
                                       /\ out = concat order)).
Proof.
  split; [|split].
  - intros w task sents l' Hg. unfold run_task.
    now rewrite (run_task_record_outcome _ _ _ _ Hg).
  - intros w task Hall. eexists. unfold run_task.
    rewrite (run_task_record_outcome w task [] _
               (group_outcome_all_skipped _ _ _ Hall _)).
    reflexivity.
  - intros w a frames Hres. pose proof Hres as Hres'.
    unfold results in Hres.
    destruct (open_wb w (output a)); simpl in Hres; [|discriminate].
    destruct (num_workers a <? 1)%Z; [discriminate|].
    destruct (raised (generator_fn w a)); [discriminate|].
    repeat split.
    + now apply mapM_in.
    + clear Hres'. revert frames Hres.
      induction (emitted (generator_fn w a)) as [|t ts IH]; simpl.
      * now intros ? [= <-].
      * intros frames. destruct (run_task w t); simpl; [|discriminate].
        destruct (mapM (run_task w) ts); simpl; [|discriminate].
        intros [= <-]. simpl. f_equal. now apply IH.
    + now apply main_writes_intro with frames.
    + intros out Hout. destruct Hout as [frames0 order Hr Hp].
      exists order. split; [|reflexivity]. congruence.
Qed.

Lemma every_processed_group_is_written_witness :
  exists languages',
    run_task (manifest_world codes)
      (mkTask (str "spk1")
              [MTuple [str "wavs"; str "b.wav"] (Some (str "yo")) [str "zh"]]
              (str "filelist") [str "ja"] None)
    = Ok (pack_pb_stream (manifest_world codes)
            (mkTextData (str "filelist") (str "spk1") languages' [])).
Proof.
  apply (proj1 (proj2 every_processed_group_is_written)
           (manifest_world codes)
           (mkTask (str "spk1")
              [MTuple [str "wavs"; str "b.wav"] (Some (str "yo")) [str "zh"]]
              (str "filelist") [str "ja"] None)).
  constructor; [|constructor].
  intros languages.
  apply missing_feature with (np_file := [str "wavs"; str "b.npy"]);
    reflexivity.
Defined.

(** *** The tags of the record *)

Lemma process_languages w extension languages m l st :
  process w extension languages m = Ok (l, st) ->
  l = languages_after languages m.
Proof.
  unfold process. rewrite unpack_parts.
  destruct (with_suffix (member_file m) (Some NPY)) as [np|e]; simpl;
    [|discriminate].
  destruct (exists_ w np); simpl; [|now intros [= <- _]].
  destruct (resolve_text w extension (member_file m) (member_text m))
    as [[t|]|e]; simpl; [| now intros [= <- _] | discriminate].
  destruct (parse w (sanitize t) (languages_after languages m) np)
    as [[ph sem]|e]; [|now intros [= <- _]].
  destruct (build_sentence (sanitize t) ph sem); simpl;
    [now intros [= <- _]|discriminate].
Qed.

Lemma loop_languages w extension subset :
  forall languages acc sents l,
    loop w extension subset languages acc = Ok (sents, l) ->
    l = fold_left languages_after subset languages.
Proof.
  induction subset as [|m rest IH]; intros languages acc sents l; simpl.
  - now intros [= _ <-].
  - destruct (process w extension languages m) as [[l1 st]|e] eqn:E; simpl;
      [|discriminate].
    apply process_languages in E as ->. apply IH.
Qed.

Lemma languages_after_paths subset languages :
  Forall (fun m => exists file, m = MPath file) subset ->
  fold_left languages_after subset languages = languages.
Proof.
  intros H. revert languages.
  induction H as [|m rest [file ->] _ IH]; intros languages; simpl; auto.
Qed.

Lemma emitted_rows_paths w rows task :
  In task (emitted (generate_rows w rows)) ->
  Forall (fun m => exists file, m = MPath file) (task_subset task).
Proof.
  induction rows as [|row rows IH]; simpl; [contradiction|].
  destruct (group_files _ _) as [groups|e]; simpl; [|contradiction].
  intros [Hin|Hin]%in_app_or; [|now apply IH].
  unfold dataset_tasks in Hin. apply in_map_iff in Hin as (g & <- & _).
  simpl. apply Forall_forall. intros m (f & <- & _)%in_map_iff. now exists f.
Qed.

Lemma group_lines_invariant lines :
  forall d0,
    Forall (fun g => snd g <> []) d0 ->
    Forall (fun g => Forall (fun m => exists f t l, m = MTuple f t l) (snd g))
           d0 ->
    let d := fold_left
               (fun d ln =>
                  dict_append (ln_speaker ln)
                    (MTuple (of_str (ln_filename ln)) (Some (ln_text ln))
                            (ln_languages ln)) d)
               lines d0 in
    Forall (fun g => snd g <> []) d
    /\ Forall (fun g => Forall (fun m => exists f t l, m = MTuple f t l)
                               (snd g)) d.
Proof.
  induction lines as [|ln lines IH]; intros d0 H1 H2; simpl; [auto|].
  apply IH.
  - now apply dict_append_nonempty.
  - apply dict_append_all; [|exact H2]. now eexists _, _, _.
Qed.

(** A group of the manifest ends with a tuple. *)
Lemma manifest_group_ends_with_tuple lines g :
  In g (group_lines lines) ->
  exists before file text tags, snd g = before ++ [MTuple file text tags].
Proof.
  intros Hin.
  destruct (group_lines_invariant lines [] (Forall_nil _) (Forall_nil _))
    as [Hne Htup].
  rewrite Forall_forall in Hne, Htup.
  specialize (Hne g Hin). specialize (Htup g Hin).
  destruct (exists_last Hne) as (before & m & Heq).
  rewrite Heq in Htup. apply Forall_app in Htup as [_ Hm].
  inversion Hm as [|? ? (f & t & l & ->) _]; subst.
  now exists before, f, t, l.
Qed.

(** C4, as the claim words it, fails in manifest mode: the record of
    [spk1] carries the tags of its last member, the tuple those of the last
    line of the manifest. *)
Lemma manifest_languages_differ : ~ languages_follow_tuple.
Proof.
  intros H.
  specialize (H (manifest_world codes)
                (task_generator_filelist (manifest_world codes) (str "list"))
                (mkTask (str "spk1")
                   [MTuple [str "wavs"; str "a.wav"] (Some (str "hi")) [str "en"];
                    MTuple [str "wavs"; str "b.wav"] (Some (str "yo")) [str "zh"]]
                   (str "filelist") [str "ja"] None)
                (mkTextData (str "filelist") (str "spk1") [str "zh"]
                   [mkSentence (str "hi") [str "h"; str "i"]
                      [mkSemantics [1; 2; 3]%Z; mkSemantics [4; 5; 6]%Z]])).
  assert (Hneq : [str "zh"] = [str "ja"]).
  { apply H.
    - right. now exists (str "list").
    - left. reflexivity.
    - reflexivity. }
  discriminate.
Qed.

(** In manifest mode every tuple carries the tags of the last line of the
    manifest. *)
Lemma manifest_tuple_languages w fl lines task :
  load_filelist w fl = Ok lines ->
  In task (emitted (task_generator_filelist w fl)) ->
  leaked_languages lines = Some (task_languages task).
Proof.
  intros Hload Hin.
  unfold task_generator_filelist in Hin. rewrite Hload in Hin.
  destruct (leaked_languages lines) as [tags0|]; [|contradiction].
  simpl in Hin. now apply in_map_iff in Hin as (g & <- & _).
Qed.

(** C4 (amended): in tree mode the [languages] field of the record is the
    tag list of the tuple the generator yielded; in manifest mode it is the
    tag list of the last member of the group, which line 79 puts in the
    place of the one of the tuple. *)
Theorem record_languages :
  forall w,
    (forall config task record,
        In task (emitted (task_generator_yaml w config)) ->
        run_task_record w task = Ok record ->
        languages record = task_languages task)
    /\ (forall fl task record,
           In task (emitted (task_generator_filelist w fl)) ->
           run_task_record w task = Ok record ->
           exists before file text tags,
             task_subset task = before ++ [MTuple file text tags]
             /\ languages record = tags).
Proof.
  intros w. split.
  - intros config task record Hin Hrun.
    unfold task_generator_yaml in Hin.
    destruct (yaml_load w config) as [rows|e]; [|contradiction].
    apply emitted_rows_paths in Hin.
    unfold run_task_record in Hrun.
    destruct (loop _ _ _ _ _) as [[sents l]|e] eqn:E; simpl in Hrun;
      [|discriminate].
    injection Hrun as <-. simpl.
    apply loop_languages in E as ->. now apply languages_after_paths.
  - intros fl task record Hin Hrun.
    unfold task_generator_filelist in Hin.
    destruct (load_filelist w fl) as [lines|e]; [|contradiction].
    destruct (leaked_languages lines) as [tags0|]; [|contradiction].
    simpl in Hin. apply in_map_iff in Hin as (g & <- & Hg).
    destruct (manifest_group_ends_with_tuple _ _ Hg)
      as (before & file & text & tags & Heq).
    exists before, file, text, tags. split; [exact Heq|].
    unfold run_task_record in Hrun. simpl in Hrun.
    destruct (loop _ _ _ _ _) as [[sents l]|e] eqn:E; simpl in Hrun;
      [|discriminate].
    injection Hrun as <-. simpl.
    apply loop_languages in E as ->. rewrite Heq, fold_left_app. reflexivity.
Qed.

Lemma record_languages_witness :
  exists before file text,
    [MTuple [str "wavs"; str "a.wav"] (Some (str "hi")) [str "en"];
     MTuple [str "wavs"; str "b.wav"] (Some (str "yo")) [str "zh"]]
    = before ++ [MTuple file text [str "zh"]].
Proof.
  destruct (proj2 (record_languages (manifest_world codes))
              (str "list")
              (mkTask (str "spk1")
                 [MTuple [str "wavs"; str "a.wav"] (Some (str "hi")) [str "en"];
                  MTuple [str "wavs"; str "b.wav"] (Some (str "yo")) [str "zh"]]
                 (str "filelist") [str "ja"] None)
              (mkTextData (str "filelist") (str "spk1") [str "zh"]
                 [mkSentence (str "hi") [str "h"; str "i"]
                    [mkSemantics [1; 2; 3]%Z; mkSemantics [4; 5; 6]%Z]]))
    as (before & file & text & tags & Heq & Htags).
  - left. reflexivity.
  - reflexivity.
  - simpl in Heq, Htags. subst tags. now exists before, file, text.
Defined.

(** * Further properties *)

(** ** The dictionary of groups, once more *)

Section DictFold.
Variables X V : Type.
Variable key : X -> pystr.
Variable val : X -> V.

Local Abbreviation collect xs d0 :=
  (fold_left (fun d x => dict_append (key x) (val x) d) xs d0).

Lemma collect_invariant xs :
  forall d0,
    NoDup (map fst d0) -> Forall (fun g => snd g <> []) d0 ->
    NoDup (map fst (collect xs d0))
    /\ Forall (fun g => snd g <> []) (collect xs d0)
    /\ forall k,
        dict_get k (collect xs d0)
        = dict_get k d0
          ++ map val (filter (fun x => pystr_eqb (key x) k) xs).
Proof.
  induction xs as [|x xs IH]; intros d0 Hnd Hne; simpl.
  - repeat split; auto. intros k. now rewrite app_nil_r.
  - destruct (IH _ (dict_append_keys _ (key x) (val x) d0 Hnd)
                 (dict_append_nonempty _ (key x) (val x) d0 Hne))
      as (H1 & H2 & H3).
    repeat split; auto. intros k. rewrite H3, dict_get_append.
    destruct (pystr_eqb (key x) k); [|reflexivity].
    simpl. now rewrite <- app_assoc.
Qed.

Lemma dict_append_members k v (d : list (pystr * list V)) :
  Permutation (concat (map snd (dict_append k v d)))
              (v :: concat (map snd d)).
Proof.
  induction d as [|[k0 vs] d IH]; simpl.
  - reflexivity.
  - destruct (pystr_eqb k0 k); simpl.
    + rewrite <- app_assoc. simpl.
      apply Permutation_sym, Permutation_middle.
    + rewrite IH. apply Permutation_sym, Permutation_middle.
Qed.

Lemma collect_members xs :
  forall d0,
    Permutation (concat (map snd (collect xs d0)))
                (concat (map snd d0) ++ map val xs).
Proof.
  induction xs as [|x xs IH]; intros d0; simpl.
  - now rewrite app_nil_r.
  - rewrite IH, dict_append_members. simpl.
    apply Permutation_middle.
Qed.

Lemma dict_get_found k (d : list (pystr * list V)) :
  dict_get k d <> [] -> In (k, dict_get k d) d.
Proof.
  induction d as [|[k0 vs] d IH]; simpl; [congruence|].
  destruct (pystr_eqb k0 k) eqn:E.
  - apply pystr_eqb_eq in E. subst. now left.
  - right. now apply IH.
Qed.
End DictFold.

(** ** The groups of a manifest *)

(** X1: in manifest mode each speaker of the manifest gets exactly one
    group, named after the speaker; the group holds the lines of that
    speaker, in the order of the manifest, and is never empty; the source
    label is [filelist] and there is no text extension. *)
Theorem manifest_groups_by_speaker :
  forall w fl lines,
    load_filelist w fl = Ok lines ->
    let g := task_generator_filelist w fl in
    raised g = None
    /\ NoDup (map task_name (emitted g))
    /\ (forall task, In task (emitted g) ->
          task_subset task
          = map member_of_line (filter (spoken_by (task_name task)) lines)
          /\ task_subset task <> []
          /\ task_source task = str "filelist"
          /\ task_extension task = None)
    /\ (forall ln, In ln lines ->
          exists task, In task (emitted g)
                       /\ task_name task = ln_speaker ln).
Proof.
  intros w fl lines Hload g. subst g. unfold task_generator_filelist.
  rewrite Hload.
  destruct (collect_invariant _ _ ln_speaker member_of_line lines []
              (NoDup_nil _) (Forall_nil _)) as (Hnd & Hne & Hget).
  change (fold_left _ lines []) with (group_lines lines) in Hnd, Hne, Hget.
  destruct (leaked_languages lines) as [tags|] eqn:El; simpl.
  - repeat split.
    + now rewrite map_map.
    + apply in_map_iff in H as (gr & <- & Hin). simpl.
      rewrite <- (dict_get_in _ (fst gr) (snd gr) _ Hnd)
        by (now destruct gr).
      apply Hget.
    + apply in_map_iff in H as (gr & <- & Hin). simpl.
      rewrite Forall_forall in Hne. now apply Hne.
    + apply in_map_iff in H as (gr & <- & Hin). reflexivity.
    + apply in_map_iff in H as (gr & <- & Hin). reflexivity.
    + intros ln Hln.
      assert (Hne' : dict_get (ln_speaker ln) (group_lines lines) <> []).
      { rewrite Hget. simpl. intros Heq. apply map_eq_nil in Heq.
        assert (Hin : In ln (filter (fun x => pystr_eqb (ln_speaker x)
                                                  (ln_speaker ln)) lines)).
        { apply filter_In. split; [exact Hln|apply pystr_eqb_refl]. }
        rewrite Heq in Hin. contradiction. }
      apply dict_get_found in Hne'.
      eexists. split; [apply in_map; exact Hne'|reflexivity].
  - unfold leaked_languages in El.
    destruct (rev lines) as [|ln rl] eqn:Er; [|discriminate].
    apply (f_equal (@rev _)) in Er. rewrite rev_involutive in Er. subst lines.
    simpl. split; [reflexivity|split; [constructor|split; intros ? []]].
Qed.

Lemma manifest_groups_by_speaker_witness :
  map task_name
      (emitted (task_generator_filelist (manifest_world codes) (str "list")))
  = [str "spk1"; str "spk2"]
  /\ NoDup (map task_name
              (emitted (task_generator_filelist (manifest_world codes)
                                                (str "list")))).
Proof.
  split; [reflexivity|].
  apply (manifest_groups_by_speaker (manifest_world codes) (str "list") _
           eq_refl).
Defined.

(** X2: in manifest mode no line is lost and none is taken twice: the
    members of all the groups together are the lines of the manifest. *)
Theorem manifest_lines_all_grouped :
  forall w fl lines,
    load_filelist w fl = Ok lines ->
    Permutation
      (concat (map task_subset (emitted (task_generator_filelist w fl))))
      (map member_of_line lines).
Proof.
  intros w fl lines Hload. unfold task_generator_filelist. rewrite Hload.
  destruct (leaked_languages lines) as [tags|] eqn:El; simpl.
  - rewrite map_map. simpl.
    apply (collect_members _ _ ln_speaker member_of_line lines []).
  - unfold leaked_languages in El.
    destruct (rev lines) as [|ln rl] eqn:Er; [|discriminate].
    apply (f_equal (@rev _)) in Er. rewrite rev_involutive in Er. now subst.
Qed.

Lemma manifest_lines_all_grouped_witness :
  length (concat (map task_subset
                      (emitted (task_generator_filelist (manifest_world codes)
                                                        (str "list")))))
  = 3%nat.
Proof.
  rewrite (Permutation_length
             (manifest_lines_all_grouped (manifest_world codes) (str "list")
                _ eq_refl)).
  reflexivity.
Defined.

(** ** The groups of a tree *)

Lemma grouping_members levels files :
  forall d0 d,
    grouping levels files d0 = Ok d ->
    Permutation (concat (map snd d)) (concat (map snd d0) ++ files).
Proof.
  induction files as [|file files IH]; intros d0 d; simpl.
  - intros [= <-]. now rewrite app_nil_r.
  - destruct (group_key levels file) as [p|e]; simpl; [|discriminate].
    intros Hg. rewrite (IH _ _ Hg), dict_append_members. simpl.
    apply Permutation_middle.
Qed.

(** X3: in tree mode the groups of a dataset have distinct keys, none is
    empty, and every file found under the root is in exactly one of them. *)
Theorem tree_groups_partition :
  forall parent_level found groups,
    group_files parent_level found = Ok groups ->
    NoDup (map fst groups)
    /\ Forall (fun g => snd g <> []) groups
    /\ Permutation (concat (map snd groups)) found.
Proof.
  intros parent_level found groups Hg. unfold group_files in Hg.
  destruct (grouping_invariant _ _ _ _ Hg (NoDup_nil _) (Forall_nil _))
    as (Hnd & Hne & _).
  repeat split; auto.
  rewrite (grouping_members _ _ _ _ Hg). simpl.
  apply sorted_perm.
Qed.

Lemma tree_groups_partition_witness :
  exists groups,
    group_files (PLList [1%Z]) (rglob_npy (tree_world true) (str "a"))
    = Ok groups
    /\ Permutation (concat (map snd groups))
                   (rglob_npy (tree_world true) (str "a")).
Proof.
  eexists. split; [reflexivity|].
  apply (tree_groups_partition (PLList [1%Z])
           (rglob_npy (tree_world true) (str "a")) _ eq_refl).
Defined.

Lemma index_ok {A} (l : list A) (i : Z) (d : A) :
  (- Z.of_nat (length l) <= i < Z.of_nat (length l))%Z ->
  index l i
  = Ok (nth (Z.to_nat (if (i <? 0)%Z then i + Z.of_nat (length l) else i)%Z)
            l d).
Proof.
  intros Hi. unfold index.
  destruct (i <? 0)%Z eqn:E1; cbv beta iota zeta.
  - apply Z.ltb_lt in E1.
    destruct (i + Z.of_nat (length l) <? 0)%Z eqn:E2;
      [apply Z.ltb_lt in E2; lia|].
    destruct (Z.of_nat (length l) <=? i + Z.of_nat (length l))%Z eqn:E3;
      [apply Z.leb_le in E3; lia|].
    simpl. rewrite (nth_error_nth' l d) by lia. reflexivity.
  - rewrite ?E1. apply Z.ltb_ge in E1.
    destruct (Z.of_nat (length l) <=? i)%Z eqn:E3;
      [apply Z.leb_le in E3; lia|].
    simpl. rewrite (nth_error_nth' l d) by lia. reflexivity.
Qed.

Lemma index_out {A} (l : list A) (i : Z) :
  (Z.of_nat (length l) <= i \/ i < - Z.of_nat (length l))%Z ->
  index l i = Raise IndexError.
Proof.
  intros [Hi|Hi]; [now apply index_beyond|]. unfold index.
  destruct (i <? 0)%Z eqn:E1; [|apply Z.ltb_ge in E1; lia].
  destruct (i + Z.of_nat (length l) <? 0)%Z eqn:E2;
    [reflexivity|apply Z.ltb_ge in E2; lia].
Qed.

Lemma index_cases {A} (l : list A) (i : Z) :
  (exists x, index l i = Ok x
             /\ (- Z.of_nat (length l) <= i < Z.of_nat (length l))%Z)
  \/ (index l i = Raise IndexError
      /\ (Z.of_nat (length l) <= i \/ i < - Z.of_nat (length l))%Z).
Proof.
  destruct (Z.ltb_spec i (Z.of_nat (length l))) as [H1|H1].
  - destruct (Z.leb_spec (- Z.of_nat (length l))%Z i) as [H2|H2].
    + left. destruct l as [|d l]; [simpl in *; lia|].
      eexists. split; [apply (index_ok (d :: l) i d); lia|lia].
    + right. split; [apply index_out; lia|lia].
  - right. split; [apply index_out; lia|lia].
Qed.

Lemma select_raise_iff parents levels :
  (exists e, select parents levels = Raise e)
  <-> exists level,
      In level levels
      /\ (Z.of_nat (length parents) < level
          \/ level <= - Z.of_nat (length parents))%Z.
Proof.
  induction levels as [|l levels IH]; simpl.
  - split; [intros [e He]; discriminate|intros (level & [] & _)].
  - destruct (index_cases parents (l - 1)) as [(x & Hx & Hr)|[Hx Hr]];
      rewrite Hx; simpl.
    + split.
      * intros [e He].
        destruct (select parents levels) as [ps|e'] eqn:Es; simpl in He;
          [discriminate|].
        destruct (proj1 IH (ex_intro _ e' eq_refl)) as (level & Hin & Hl).
        exists level. split; [now right|exact Hl].
      * intros (level & [<-|Hin] & Hl); [lia|].
        destruct (proj2 IH (ex_intro _ level (conj Hin Hl))) as [e He].
        exists e. now rewrite He.
    + split; [|now eexists].
      intros _. exists l. split; [now left|lia].
Qed.

Lemma group_key_raise_iff levels file :
  (exists e, group_key levels file = Raise e)
  <-> exists level, In level levels /\ out_of_range file level.
Proof.
  unfold group_key, out_of_range, depth.
  rewrite <- select_raise_iff.
  destruct (select (all_parents file) levels) as [ps|e0]; simpl; split;
    intros [e1 He]; try discriminate; now eexists.
Qed.

Lemma grouping_raise_iff levels files :
  forall d0,
    (exists e, grouping levels files d0 = Raise e)
    <-> exists file, In file files
                     /\ exists e, group_key levels file = Raise e.
Proof.
  induction files as [|f files IH]; intros d0; simpl.
  - split; [intros [e He]; discriminate|intros (file & [] & _)].
  - destruct (group_key levels f) as [p|e] eqn:E; simpl.
    + rewrite IH. split.
      * intros (file & Hin & He). exists file. split; [now right|exact He].
      * intros (file & [<-|Hin] & e & He); [congruence|].
        exists file. split; [exact Hin|now exists e].
    + split; [|now eexists].
      intros _. exists f. split; [now left|]. exists e. exact E.
Qed.

(** X4: grouping a dataset fails exactly when one of its indices is out of
    range for one of its files, that is larger than the number of ancestors
    of the file or not larger than its opposite; the failure is an
    [IndexError].  A dataset without files never fails. *)
Theorem grouping_fails_exactly_out_of_range :
  forall parent_level found,
    ((exists e, group_files parent_level found = Raise e)
     <-> exists file level,
         In file found /\ In level (normalize_level parent_level)
         /\ out_of_range file level)
    /\ (forall e, group_files parent_level found = Raise e -> e = IndexError).
Proof.
  intros parent_level found. unfold group_files. split.
  - rewrite grouping_raise_iff. split.
    + intros (file & Hin & He).
      apply group_key_raise_iff in He as (level & Hl & Hr).
      exists file, level. repeat split; auto.
      apply (Permutation_in _ (sorted_perm _ path_ltb found)). exact Hin.
    + intros (file & level & Hin & Hl & Hr).
      exists file. split.
      * apply (Permutation_in _ (Permutation_sym
                                   (sorted_perm _ path_ltb found))).
        exact Hin.
      * apply group_key_raise_iff. now exists level.
  - intros e. generalize (@nil (pystr * list Path)).
    induction (sorted path_ltb found) as [|f files IH]; intros d0; simpl;
      [discriminate|].
    destruct (group_key (normalize_level parent_level) f) as [p|e'] eqn:E;
      simpl.
    + apply IH.
    + intros [= <-]. now apply group_key_raises in E.
Qed.

(** X5: an index that is zero or negative does not fail while it stays
    within the ancestors: it counts from the far end, so that level 0 names
    the topmost directory of the path. *)
Theorem nonpositive_level_counts_from_top :
  (forall file level,
      (- depth file < level <= 0)%Z ->
      group_key [level] file
      = Ok (nth (Z.to_nat (depth file + level - 1)) (all_parents file) []))
  /\ (forall top rest,
         well_formed (top :: rest) -> rest <> [] ->
         group_key [0%Z] (top :: rest) = Ok top).
Proof.
  split.
  - intros file level Hl. unfold group_key, depth in *. simpl.
    rewrite (index_ok (all_parents file) (level - 1) []) by lia.
    destruct (level - 1 <? 0)%Z eqn:E; [|apply Z.ltb_ge in E; lia].
    simpl. do 3 f_equal. lia.
  - intros top rest Hwf Hne. unfold group_key. simpl.
    rewrite (all_parents_closed _ Hwf).
    assert (Hp : parent (top :: rest) = top :: removelast rest).
    { unfold parent. simpl. now destruct rest. }
    rewrite Hp. cbn [rev].
    rewrite (index_ok (rev (removelast rest) ++ [top]) (-1) [])
      by (rewrite length_app; simpl; lia).
    change (-1 <? 0)%Z with true. cbv beta iota. unfold bind. cbn [join].
    rewrite length_app. cbn [length].
    replace (Z.to_nat (-1 + Z.of_nat (length (rev (removelast rest)) + 1)))
      with (length (rev (removelast rest))) by lia.
    now rewrite nth_middle.
Qed.

Lemma nonpositive_level_counts_from_top_witness :
  group_key [0%Z] [str "root"; str "a"; str "b"; str "f.npy"] = Ok (str "root")
  /\ group_key [(-1)%Z] [str "root"; str "a"; str "b"; str "f.npy"]
     = Ok (str "a").
Proof.
  split.
  - apply (proj2 nonpositive_level_counts_from_top).
    + repeat constructor.
    + discriminate.
  - apply (proj1 nonpositive_level_counts_from_top
             [str "root"; str "a"; str "b"; str "f.npy"] (-1)%Z).
    vm_compute. split; [reflexivity|discriminate].
Defined.

Lemma grouping_fails_exactly_out_of_range_witness :
  group_files (PLList [2%Z]) [[str "b"; str "g.npy"]] = Raise IndexError.
Proof.
  destruct (grouping_fails_exactly_out_of_range
              (PLList [2%Z]) [[str "b"; str "g.npy"]]) as [Hiff Hkind].
  destruct (proj2 Hiff) as [e He].
  - exists [str "b"; str "g.npy"], 2%Z.
    split; [now left|]. split; [now left|]. left. reflexivity.
  - rewrite He. f_equal. now apply Hkind.
Defined.

Lemma grouping_no_level files :
  forall acc,
    grouping [] files [([], acc)] = Ok [([], acc ++ files)].
Proof.
  induction files as [|f files IH]; intros acc; simpl.
  - now rewrite app_nil_r.
  - rewrite IH. now rewrite <- app_assoc.
Qed.

(** X6: with an empty list of levels every file has the empty key: the
    files of the dataset, if there are any, form one group with an empty
    name, in sorted order. *)
Theorem no_level_gives_one_group :
  forall found,
    group_files (PLList []) found
    = Ok match sorted path_ltb found with
         | [] => []
         | file :: files => [([], file :: files)]
         end.
Proof.
  intros found. unfold group_files. simpl.
  destruct (sorted path_ltb found) as [|f files]; [reflexivity|].
  simpl. now rewrite grouping_no_level.
Qed.

(** ** The record of a group, once more *)

Lemma build_sentence_fields t ph v s :
  build_sentence t ph v = Ok s -> text s = t /\ phones s = ph.
Proof.
  unfold build_sentence.
  destruct (iterate (tolist_if_ndarray v)) as [rows|e]; simpl; [|discriminate].
  destruct (mapM new_Semantics rows) as [sems|e]; simpl; [|discriminate].
  now intros [= <-].
Qed.

(** What one round of the loop does is one of the five outcomes. *)
Lemma member_outcome_complete w extension languages m l st :
  process w extension languages m = Ok (l, st) ->
  member_outcome w extension languages m st.
Proof.
  unfold process. rewrite unpack_parts.
  destruct (with_suffix (member_file m) (Some NPY)) as [np|e] eqn:Hnp; simpl;
    [|discriminate].
  destruct (exists_ w np) eqn:Hex; simpl.
  - destruct (resolve_text w extension (member_file m) (member_text m))
      as [[t|]|e] eqn:Ht; simpl; [| |discriminate].
    + unfold parse.
      destruct (g2p w (sanitize t) (languages_after languages m))
        as [ph|e] eqn:Hg; simpl.
      * destruct (np_load w np) as [v|e] eqn:Hl; simpl.
        -- destruct (build_sentence (sanitize t) (map snd ph) v)
             as [s|e] eqn:Hs; simpl; [|discriminate].
           intros [= _ <-]. eapply sentence_built; eauto.
        -- intros [= _ <-]. eapply loading_error; eauto.
      * intros [= _ <-]. eapply phonemizer_error; eauto.
    + intros [= _ <-].
      apply resolve_text_none in Ht as (Htext & txt & Htxt & Hex').
      eapply missing_sidecar; eauto.
  - intros [= _ <-]. eapply missing_feature; eauto.
Qed.

Lemma group_outcome_complete w extension subset :
  forall languages acc sents languages',
    loop w extension subset languages acc = Ok (sents, languages') ->
    exists added,
      sents = acc ++ added
      /\ group_outcome w extension languages subset added languages'.
Proof.
  induction subset as [|m rest IH]; intros languages acc sents l'; simpl.
  - intros [= <- <-]. exists []. split; [now rewrite app_nil_r|constructor].
  - destruct (process w extension languages m) as [[l1 st]|e] eqn:E; simpl;
      [|discriminate].
    pose proof (process_languages _ _ _ _ _ _ E) as ->.
    apply member_outcome_complete in E.
    intros Hloop. destruct (IH _ _ _ _ Hloop) as (added & -> & Hg).
    destruct st as [|s].
    + exists added. split; [reflexivity|now apply group_skip].
    + exists (s :: added). split; [now rewrite <- app_assoc|].
      now apply group_append.
Qed.

Lemma run_task_record_inv w task record :
  run_task_record w task = Ok record ->
  source record = task_source task
  /\ name record = task_name task
  /\ group_outcome w (task_extension task) (task_languages task)
                   (task_subset task) (sentences record) (languages record).
Proof.
  unfold run_task_record.
  destruct (loop _ _ _ _ _) as [[sents l]|e] eqn:E; simpl; [|discriminate].
  intros [= <-]. simpl.
  destruct (group_outcome_complete _ _ _ _ _ _ _ E) as (added & -> & Hg).
  auto.
Qed.

(** X7: [run_task] returns a record exactly when each member of the group
    has one of the five outcomes (four ways of being skipped, one of giving a
    sentence); the record then has the source and the name of the task, the
    sentences of the members that are not skipped, in the order of the
    members, and the last value of [languages]. *)
Theorem run_task_record_characterised :
  forall w task record,
    run_task_record w task = Ok record
    <-> source record = task_source task
        /\ name record = task_name task
        /\ group_outcome w (task_extension task) (task_languages task)
                         (task_subset task) (sentences record)
                         (languages record).
Proof.
  intros w task record. split.
  - apply run_task_record_inv.
  - intros (Hs & Hn & Hg). rewrite (run_task_record_outcome _ _ _ _ Hg).
    destruct record. simpl in *. now subst.
Qed.

Lemma group_outcome_sentences w extension languages subset sents languages' :
  group_outcome w extension languages subset sents languages' ->
  (length sents <= length subset)%nat
  /\ Forall (fun s =>
               single_spaced false (text s) = true
               /\ exists t tags ph,
                   text s = sanitize t
                   /\ g2p w (text s) tags = Ok ph
                   /\ phones s = map snd ph) sents.
Proof.
  induction 1 as [languages | languages m rest sents languages' Hm _ IH
                  | languages m s rest sents languages' Hm _ IH]; simpl.
  - split; [lia|constructor].
  - destruct IH. split; [lia|assumption].
  - destruct IH as [Hlen Hall]. split; [lia|]. constructor; [|exact Hall].
    inversion Hm as [| | | |np t ph v s' Hnp Hex Ht Hg Hl Hs]; subst.
    apply build_sentence_fields in Hs as [Htext Hph].
    split.
    + rewrite Htext. apply ws_scan_single_spaced.
    + exists t, (languages_after languages m), ph.
      rewrite Htext. auto.
Qed.

(** X8: a record holds at most one sentence for each member of its group;
    the text of every sentence is a cleaned text, in which all whitespace is
    single plain spaces, and its phones are those the phonemizer gives for
    that text. *)
Theorem record_sentences_are_cleaned :
  forall w task record,
    run_task_record w task = Ok record ->
    (length (sentences record) <= length (task_subset task))%nat
    /\ Forall (fun s =>
                 single_spaced false (text s) = true
                 /\ exists t tags ph,
                     text s = sanitize t
                     /\ g2p w (text s) tags = Ok ph
                     /\ phones s = map snd ph) (sentences record).
Proof.
  intros w task record Hrun.
  apply run_task_record_inv in Hrun as (_ & _ & Hg).
  now apply group_outcome_sentences in Hg.
Qed.

Lemma record_sentences_are_cleaned_witness :
  (length (sentences spk2_record) <= length (task_subset spk2_task))%nat
  /\ Forall (fun s => single_spaced false (text s) = true)
            (sentences spk2_record).
Proof.
  destruct (record_sentences_are_cleaned (manifest_world codes) spk2_task
              spk2_record eq_refl) as [Hlen Hall].
  split; [exact Hlen|].
  eapply Forall_impl; [|exact Hall].
  intros s [Hs _]. exact Hs.
Defined.

Lemma as_int_inv l :
  forall vs, mapM as_int l = Ok vs -> l = map PInt vs.
Proof.
  induction l as [|x l IH]; intros vs; simpl.
  - now intros [= <-].
  - destruct x as [z|l0]; simpl; [|discriminate].
    destruct (mapM as_int l) as [vs'|e]; simpl; [|discriminate].
    intros [= <-]. simpl. f_equal. now apply IH.
Qed.

Lemma new_Semantics_inv r sem :
  new_Semantics r = Ok sem -> r = PList (map PInt (values sem)).
Proof.
  unfold new_Semantics. destruct r as [z|l]; simpl; [discriminate|].
  destruct (mapM as_int l) as [vs|e] eqn:E; simpl; [|discriminate].
  intros [= <-]. simpl. f_equal. now apply as_int_inv.
Qed.

Lemma build_sentence_rows t ph v s :
  build_sentence t ph v = Ok s ->
  tolist_if_ndarray v = rows_of (semantics s).
Proof.
  unfold build_sentence.
  destruct (tolist_if_ndarray v) as [z|rows]; simpl; [discriminate|].
  destruct (mapM new_Semantics rows) as [sems|e] eqn:E; simpl; [|discriminate].
  intros [= <-]. simpl. unfold rows_of. f_equal.
  revert sems E. induction rows as [|r rows IH]; intros sems; simpl.
  - now intros [= <-].
  - destruct (new_Semantics r) as [sem|e] eqn:Er; simpl; [|discriminate].
    destruct (mapM new_Semantics rows) as [sems'|e]; simpl; [|discriminate].
    intros [= <-]. simpl. f_equal; [now apply new_Semantics_inv|now apply IH].
Qed.

Lemma process_array w extension languages m l s :
  process w extension languages m = Ok (l, Append s) ->
  exists np_file v,
    with_suffix (member_file m) (Some NPY) = Ok np_file
    /\ np_load w np_file = Ok v
    /\ tolist_if_ndarray v = rows_of (semantics s).
Proof.
  intros Hp. apply member_outcome_complete in Hp.
  inversion Hp as [| | | |np t ph v s' Hnp Hex Ht Hg Hl Hs]; subst.
  exists np, v. repeat split; auto. now apply build_sentence_rows in Hs.
Qed.

Lemma group_outcome_positions w extension languages subset sents languages' :
  group_outcome w extension languages subset sents languages' ->
  exists outs : list (option Sentence),
    sents = flat_map (fun o => match o with Some s => [s] | None => [] end) outs
    /\ Forall2
         (fun m o =>
            exists tags l,
              process w extension tags m
              = Ok (l, match o with Some s => Append s | None => Continue end)
              /\ match o with
                 | None => True
                 | Some s =>
                     exists np_file v,
                       with_suffix (member_file m) (Some NPY) = Ok np_file
                       /\ np_load w np_file = Ok v
                       /\ tolist_if_ndarray v = rows_of (semantics s)
                 end)
         subset outs.
Proof.
  induction 1 as [languages | languages m rest sents languages' Hm _ IH
                  | languages m s rest sents languages' Hm _ IH].
  - exists []. split; [reflexivity|constructor].
  - destruct IH as (outs & -> & Hall).
    exists (None :: outs). split; [reflexivity|]. constructor; [|exact Hall].
    exists languages, (languages_after languages m).
    split; [now apply member_outcome_sound|exact I].
  - destruct IH as (outs & -> & Hall).
    exists (Some s :: outs). split; [reflexivity|]. constructor; [|exact Hall].
    pose proof (member_outcome_sound _ _ _ _ _ Hm) as Hp.
    exists languages, (languages_after languages m).
    split; [exact Hp|]. now apply process_array in Hp.
Qed.

(** X9: the semantics of a sentence reproduce the array loaded from the
    feature file of the member the sentence is built from: one [Semantics]
    for each row, in the order of the rows, holding the codes of the row;
    nothing of the array is dropped or reordered.  In the record the
    sentences stand in the order of their members, each with the array of
    its own member. *)
Theorem sentence_semantics_are_the_rows :
  (forall w extension languages m l s,
      process w extension languages m = Ok (l, Append s) ->
      exists np_file v,
        with_suffix (member_file m) (Some NPY) = Ok np_file
        /\ np_load w np_file = Ok v
        /\ tolist_if_ndarray v = rows_of (semantics s))
  /\ (forall w task record,
         run_task_record w task = Ok record ->
         exists outs : list (option Sentence),
           sentences record
           = flat_map (fun o => match o with Some s => [s] | None => [] end)
                      outs
           /\ Forall2
                (fun m o =>
                   exists tags l,
                     process w (task_extension task) tags m
                     = Ok (l, match o with
                              | Some s => Append s
                              | None => Continue
                              end)
                     /\ match o with
                        | None => True
                        | Some s =>
                            exists np_file v,
                              with_suffix (member_file m) (Some NPY)
                              = Ok np_file
                              /\ np_load w np_file = Ok v
                              /\ tolist_if_ndarray v = rows_of (semantics s)
                        end)
                (task_subset task) outs).
Proof.
  split.
  - apply process_array.
  - intros w task record Hrun.
    apply run_task_record_inv in Hrun as (_ & _ & Hg).
    now apply group_outcome_positions in Hg.
Qed.

Lemma sentence_semantics_are_the_rows_witness :
  exists np_file v,
    with_suffix [str "wavs"; str "c.wav"] (Some NPY) = Ok np_file
    /\ np_load (manifest_world codes) np_file = Ok v
    /\ tolist_if_ndarray v
       = rows_of [mkSemantics [1; 2; 3]%Z; mkSemantics [4; 5; 6]%Z].
Proof.
  apply (proj1 sentence_semantics_are_the_rows (manifest_world codes) None
           [str "ja"]
           (MTuple [str "wavs"; str "c.wav"]
                   (Some (str "Hello {noise} world")) [str "ja"])
           [str "ja"]
           (mkSentence (str "Hello world")
                       (map (fun c => [c]) (str "Hello world"))
                       [mkSemantics [1; 2; 3]%Z; mkSemantics [4; 5; 6]%Z])
           eq_refl).
Defined.

(** ** The cleaning, once more *)

Lemma sub_span_absent open close s :
  lacks open s = true -> sub_span open close s = s.
Proof.
  unfold sub_span. induction s as [|c s IH]; [reflexivity|].
  intros [Hc Hs]%lacks_cons. simpl. rewrite Hc. f_equal. now apply IH.
Qed.

Lemma ws_scan_fixed s :
  forall prev, single_spaced prev s = true -> ws_scan prev s = s.
Proof.
  induction s as [|c s IH]; intros prev; simpl; [reflexivity|].
  destruct (is_space c) eqn:E.
  - intros [[Hc Hp]%andb_prop Hs]%andb_prop.
    apply N.eqb_eq in Hc. apply negb_true_iff in Hp. subst c prev.
    f_equal. now apply IH.
  - intros Hs. f_equal. now apply IH.
Qed.

(** X10: cleaning a text a second time changes nothing more of its
    whitespace, and a text without opening bracket is cleaned by collapsing
    its whitespace only, after which cleaning it again leaves it as it is. *)
Theorem cleaning_of_plain_text :
  (forall text, sub_ws (sanitize text) = sanitize text)
  /\ (forall text,
         lacks LBRACE text = true -> lacks LANGLE text = true ->
         sanitize text = sub_ws text
         /\ sanitize (sanitize text) = sanitize text).
Proof.
  assert (Hfix : forall s, sub_ws (sub_ws s) = sub_ws s).
  { intros s. apply ws_scan_fixed, ws_scan_single_spaced. }
  split.
  - intros text. apply Hfix.
  - intros text Hb Ha.
    assert (Hs : sanitize text = sub_ws text).
    { unfold sanitize, sub_brace, sub_angle.
      now rewrite (sub_span_absent _ _ _ Hb), (sub_span_absent _ _ _ Ha). }
    split; [exact Hs|].
    assert (Hkeep : forall c b s,
               (SPACE =? c)%N = false -> lacks c s = true ->
               lacks c (ws_scan b s) = true).
    { intros c b s Hc. revert b.
      induction s as [|x s IH]; intros b; simpl; [reflexivity|].
      intros [Hx Hl]%lacks_cons.
      destruct (is_space x); [destruct b|]; unfold lacks in *; simpl;
        rewrite ?Hc, ?Hx; simpl; now apply IH. }
    rewrite Hs. unfold sanitize, sub_brace, sub_angle.
    rewrite (sub_span_absent LBRACE RBRACE (sub_ws text))
      by (apply Hkeep; auto).
    rewrite (sub_span_absent LANGLE RANGLE (sub_ws text))
      by (apply Hkeep; auto).
    apply Hfix.
Qed.

Lemma cleaning_of_plain_text_witness :
  sanitize (str "a   b") = sub_ws (str "a   b")
  /\ sanitize (sanitize (str "a   b")) = sanitize (str "a   b").
Proof.
  apply (proj2 cleaning_of_plain_text (str "a   b")); reflexivity.
Defined.

Lemma sub_scan_bounds open close s :
  forall skip,
    (length (sub_scan open close skip s) <= length s)%nat
    /\ forall c, In c (sub_scan open close skip s) -> c = SPACE \/ In c s.
Proof.
  induction s as [|x s IH]; intros skip; simpl.
  - split; [lia|intros c []].
  - destruct skip as [|k].
    + destruct (x =? open)%N.
      * destruct (span_len close s) as [n|].
        -- destruct (IH n) as [Hl Hc]. split; [simpl; lia|].
           intros c [<-|Hin]; [now left|].
           destruct (Hc c Hin); auto.
        -- destruct (IH 0%nat) as [Hl Hc]. split; [simpl; lia|].
           intros c [<-|Hin]; [auto|]. destruct (Hc c Hin); auto.
      * destruct (IH 0%nat) as [Hl Hc]. split; [simpl; lia|].
        intros c [<-|Hin]; [auto|]. destruct (Hc c Hin); auto.
    + destruct (IH k) as [Hl Hc]. split; [lia|].
      intros c Hin. destruct (Hc c Hin); auto.
Qed.

Lemma ws_scan_bounds s :
  forall b,
    (length (ws_scan b s) <= length s)%nat
    /\ forall c, In c (ws_scan b s) -> c = SPACE \/ In c s.
Proof.
  induction s as [|x s IH]; intros b; simpl.
  - split; [lia|intros c []].
  - destruct (is_space x).
    + destruct b.
      * destruct (IH true) as [Hl Hc]. split; [lia|].
        intros c Hin. destruct (Hc c Hin); auto.
      * destruct (IH true) as [Hl Hc]. split; [simpl; lia|].
        intros c [<-|Hin]; [now left|]. destruct (Hc c Hin); auto.
    + destruct (IH false) as [Hl Hc]. split; [simpl; lia|].
      intros c [<-|Hin]; [auto|]. destruct (Hc c Hin); auto.
Qed.

(** X11: cleaning never makes a text longer, and the only character it can
    add is the plain space: every other character of the cleaned text is a
    character of the text. *)
Theorem cleaning_only_removes :
  forall text,
    (length (sanitize text) <= length text)%nat
    /\ forall c, In c (sanitize text) -> c = SPACE \/ In c text.
Proof.
  intros text. unfold sanitize, sub_ws, sub_angle, sub_brace, sub_span.
  destruct (sub_scan_bounds LBRACE RBRACE text 0) as [L1 C1].
  destruct (sub_scan_bounds LANGLE RANGLE
              (sub_scan LBRACE RBRACE 0 text) 0) as [L2 C2].
  destruct (ws_scan_bounds
              (sub_scan LANGLE RANGLE 0 (sub_scan LBRACE RBRACE 0 text))
              false) as [L3 C3].
  split; [lia|].
  intros c Hin. destruct (C3 c Hin) as [?|H3]; [auto|].
  destruct (C2 c H3) as [?|H2]; [auto|]. now apply C1.
Qed.

Lemma cleaning_only_removes_witness :
  In 72%N (str "Hello {noise} world").
Proof.
  destruct (proj2 (cleaning_only_removes (str "Hello {noise} world")) 72%N)
    as [H|H].
  - vm_compute. left. reflexivity.
  - discriminate.
  - exact H.
Defined.

(** ** The files of a member *)

Lemma rfind_absent c s : lacks c s = true -> rfind c s = None.
Proof.
  induction s as [|x s IH]; [reflexivity|].
  intros [Hx Hs]%lacks_cons. simpl. now rewrite (IH Hs), Hx.
Qed.

Lemma rfind_last c a b :
  lacks c b = true -> rfind c (a ++ c :: b) = Some (length a).
Proof.
  intros Hb. induction a as [|x a IH]; simpl.
  - now rewrite (rfind_absent _ _ Hb), N.eqb_refl.
  - now rewrite IH.
Qed.

Lemma name_of_file dir n : Pathlib.name (dir ++ [n]) = n.
Proof. unfold Pathlib.name. apply last_last. Qed.

Lemma parent_of_file dir n : parent (dir ++ [n]) = dir.
Proof. unfold parent. apply removelast_last. Qed.

Lemma suffix_of_file dir stem ext :
  stem <> [] -> ext <> [] -> lacks DOT ext = true ->
  suffix (dir ++ [stem ++ DOT :: ext]) = DOT :: ext.
Proof.
  intros Hs He Hd. unfold suffix. rewrite name_of_file, (rfind_last _ _ _ Hd).
  rewrite length_app. simpl.
  assert (H1 : (0 <? length stem)%nat = true)
    by (apply Nat.ltb_lt; destruct stem; [congruence|simpl; lia]).
  assert (H2 : (length stem <? length stem + S (length ext) - 1)%nat = true)
    by (apply Nat.ltb_lt; destruct ext; [congruence|simpl; lia]).
  rewrite H1, H2. simpl.
  rewrite skipn_app, skipn_all, Nat.sub_diag. reflexivity.
Qed.

Lemma with_suffix_replaces dir stem ext new :
  stem <> [] -> ext <> [] -> lacks DOT ext = true ->
  lacks SLASH new = true -> new <> [] ->
  with_suffix (dir ++ [stem ++ DOT :: ext]) (Some (DOT :: new))
  = Ok (dir ++ [stem ++ DOT :: new]).
Proof.
  intros Hs He Hd Hn Hne. unfold with_suffix.
  assert (Hsl : existsb (N.eqb SLASH) (DOT :: new) = false).
  { simpl. change (SLASH =? DOT)%N with false. simpl.
    clear Hne. induction new as [|x new IH]; [reflexivity|].
    apply lacks_cons in Hn as [Hx Hn]. simpl.
    rewrite N.eqb_sym, Hx. now apply IH. }
  rewrite Hsl. cbn [truthy startswith_dot]. rewrite N.eqb_refl.
  assert (Hdot : pystr_eqb (DOT :: new) [DOT] = false).
  { destruct (pystr_eqb (DOT :: new) [DOT]) eqn:E; [|reflexivity].
    apply pystr_eqb_eq in E. injection E as ->. congruence. }
  rewrite Hdot. cbn [negb andb orb].
  rewrite name_of_file, parent_of_file, (suffix_of_file _ _ _ Hs He Hd).
  assert (Htr : truthy (stem ++ DOT :: ext) = true)
    by (destruct stem; [congruence|reflexivity]).
  rewrite Htr. cbn [negb truthy].
  rewrite length_app. cbn [length].
  replace (length stem + S (length ext) - S (length ext))%nat
    with (length stem) by lia.
  rewrite firstn_app, firstn_all, Nat.sub_diag. simpl.
  now rewrite app_nil_r.
Qed.

(** X12: a member [dir/stem.ext] has the feature file [dir/stem.npy] and,
    in tree mode with the text extension [.new], the sidecar [dir/stem.new];
    a file found as [dir/stem.npy] is its own feature file, and when its
    sidecar is missing the member is skipped, whatever else the world
    holds. *)
Theorem member_files_share_the_stem :
  forall dir stem,
    stem <> [] ->
    (forall ext,
        ext <> [] -> lacks DOT ext = true ->
        with_suffix (dir ++ [stem ++ DOT :: ext]) (Some NPY)
        = Ok (dir ++ [stem ++ NPY]))
    /\ with_suffix (dir ++ [stem ++ NPY]) (Some NPY) = Ok (dir ++ [stem ++ NPY])
    /\ (forall w new languages,
           new <> [] -> lacks SLASH new = true ->
           exists_ w (dir ++ [stem ++ NPY]) = true ->
           exists_ w (dir ++ [stem ++ DOT :: new]) = false ->
           process w (Some (DOT :: new)) languages (MPath (dir ++ [stem ++ NPY]))
           = Ok (languages, Continue)).
Proof.
  intros dir stem Hs.
  assert (Hnpy : forall ext, ext <> [] -> lacks DOT ext = true ->
                   with_suffix (dir ++ [stem ++ DOT :: ext]) (Some NPY)
                   = Ok (dir ++ [stem ++ NPY])).
  { intros ext He Hd.
    apply (with_suffix_replaces dir stem ext (str "npy")); auto.
    discriminate. }
  split; [exact Hnpy|]. split.
  - apply (Hnpy (str "npy")); [discriminate|reflexivity].
  - intros w new languages Hne Hn Hex Hex'.
    apply (member_outcome_sound w (Some (DOT :: new)) languages
             (MPath (dir ++ [stem ++ NPY])) Continue).
    apply missing_sidecar
      with (np_file := dir ++ [stem ++ NPY])
           (txt_file := dir ++ [stem ++ DOT :: new]); auto.
    + apply (Hnpy (str "npy")); [discriminate|reflexivity].
    + apply (with_suffix_replaces dir stem (str "npy") new); auto.
      discriminate.
Qed.

Lemma member_files_share_the_stem_witness :
  with_suffix [str "wavs"; str "a.b.wav"] (Some NPY)
  = Ok [str "wavs"; str "a.b.npy"].
Proof.
  apply (proj1 (member_files_share_the_stem [str "wavs"] (str "a.b")
                  ltac:(discriminate)) (str "wav")).
  - discriminate.
  - reflexivity.
Defined.

(** ** The train and validation lists *)

Lemma scan_binds_file w files lines :
  forall st,
    lines <> [] \/ TrainSplit.file_bound st ->
    TrainSplit.file_bound (TrainSplit.scan w files lines st).
Proof.
  induction lines as [|line rest IH]; intros st H; simpl.
  - destruct H as [H|H]; [congruence|exact H].
  - destruct (existsb _ files); [|destruct (negb _)];
      apply IH; right; unfold TrainSplit.file_bound; simpl; discriminate.
Qed.

(** X13: with [--filelist] the script never writes its two lists: an
    unreadable list raises, an empty one leaves [file] unbound at line 34
    ([UnboundLocalError]), and otherwise line 34, which stands after the loop,
    keeps the last name only, as a string, on which line 40 calls
    [relative_to] ([AttributeError]). *)
Theorem filelist_branch_never_writes :
  forall w a fl,
    TrainSplit.filelist a = Some fl ->
    (exists e, TrainSplit.main w a = Raise e)
    /\ (TrainSplit.readlines w fl = Ok [] ->
        TrainSplit.main w a = Raise (OtherError (str "UnboundLocalError")))
    /\ (forall lines,
           TrainSplit.readlines w fl = Ok lines -> lines <> [] ->
           TrainSplit.main w a = Raise (OtherError (str "AttributeError"))).
Proof.
  intros w a fl Hfl.
  assert (Hne : forall lines,
             TrainSplit.readlines w fl = Ok lines -> lines <> [] ->
             TrainSplit.main w a = Raise (OtherError (str "AttributeError"))).
  { intros lines Hr Hl. unfold TrainSplit.main, TrainSplit.files_of_filelist.
    rewrite Hfl, Hr. simpl.
    pose proof (scan_binds_file w [] lines (TrainSplit.mkScan None 0 0)
                  (or_introl Hl)) as Hb.
    unfold TrainSplit.file_bound in Hb.
    destruct (TrainSplit.file _) as [f|]; [reflexivity|congruence]. }
  assert (Hem : TrainSplit.readlines w fl = Ok [] ->
                TrainSplit.main w a
                = Raise (OtherError (str "UnboundLocalError"))).
  { intros Hr. unfold TrainSplit.main, TrainSplit.files_of_filelist.
    now rewrite Hfl, Hr. }
  split; [|split; assumption].
  destruct (TrainSplit.readlines w fl) as [[|l ls]|e] eqn:Hr.
  - eexists. now apply Hem.
  - eexists. apply (Hne (l :: ls)); [reflexivity|discriminate].
  - exists e. unfold TrainSplit.main, TrainSplit.files_of_filelist.
    now rewrite Hfl, Hr.
Qed.

Lemma filelist_branch_never_writes_witness :
  TrainSplit.main TrainSplit.split_world
    (TrainSplit.mkSplitArgs [str "data"] None (Some [str "list.txt"]))
  = Raise (OtherError (str "AttributeError")).
Proof.
  apply (proj2 (proj2 (filelist_branch_never_writes TrainSplit.split_world
                         (TrainSplit.mkSplitArgs [str "data"] None
                                                 (Some [str "list.txt"]))
                         [str "list.txt"] eq_refl))
           [str "a.wav|spk|en|hi"; str "b.wav|spk|en|yo"]).
  - reflexivity.
  - discriminate.
Defined.

Lemma slices_partition {A} (l : list A) (v : Z) :
  TrainSplit.slice_to l v ++ TrainSplit.slice_from l v = l.
Proof. apply firstn_skipn. Qed.

Lemma slice_index_in_range n c :
  (1 <= c <= Z.of_nat n)%Z -> TrainSplit.slice_index n c = Z.to_nat c.
Proof.
  intros Hc. unfold TrainSplit.slice_index.
  destruct (c <? 0)%Z eqn:E; [apply Z.ltb_lt in E; lia|].
  f_equal. lia.
Qed.

(** X14: without [--filelist], whatever size the validation list is given,
    every name goes to exactly one of the two lists: the validation list
    followed by the training list is the shuffled list of the names, the
    validation list being its beginning. *)
Theorem split_keeps_every_name :
  forall w a written,
    TrainSplit.filelist a = None ->
    (forall l, Permutation (TrainSplit.shuffle w l) l) ->
    TrainSplit.main w a = Ok written ->
    exists names train val,
      mapM (TrainSplit.relative_name (TrainSplit.root a))
           (map TrainSplit.FPath (TrainSplit.list_files w (TrainSplit.root a)))
      = Ok names
      /\ written
         = [ (TrainSplit.root a ++ [str "vq_train_filelist.txt"], join [NL] train);
             (TrainSplit.root a ++ [str "vq_val_filelist.txt"], join [NL] val) ]
      /\ val ++ train = TrainSplit.shuffle w names
      /\ Permutation (val ++ train) names.
Proof.
  intros w a written Hfl Hperm. unfold TrainSplit.main. rewrite Hfl. simpl.
  destruct (mapM _ _) as [names|e]; simpl; [|discriminate].
  destruct (TrainSplit.val_size_of _ _ _) as [v|e]; simpl; [|discriminate].
  intros [= <-].
  exists names, (TrainSplit.slice_from (TrainSplit.shuffle w names) v),
    (TrainSplit.slice_to (TrainSplit.shuffle w names) v).
  repeat split.
  - apply slices_partition.
  - rewrite slices_partition. apply Hperm.
Qed.

Lemma split_keeps_every_name_witness :
  exists train val,
    Permutation (val ++ train) [str "a.wav"; str "s/b.wav"; str "c.wav"]
    /\ val ++ train = [str "c.wav"; str "s/b.wav"; str "a.wav"].
Proof.
  destruct (split_keeps_every_name TrainSplit.split_world
              (TrainSplit.mkSplitArgs [str "data"] None None) _
              eq_refl (fun l => Permutation_sym (Permutation_rev l)) eq_refl)
    as (names & train & val & Hn & _ & Hs & Hp).
  injection Hn as <-. exists train, val. split; [exact Hp|exact Hs].
Defined.

Lemma relative_to_under root rel :
  TrainSplit.relative_to (root ++ rel) root = Ok rel.
Proof.
  induction root as [|r root IH]; simpl; [reflexivity|].
  now rewrite pystr_eqb_refl.
Qed.

Lemma relative_names_under root rels :
  mapM (TrainSplit.relative_name root)
       (map TrainSplit.FPath (map (app root) rels))
  = Ok (map TrainSplit.path_str rels).
Proof.
  induction rels as [|rel rels IH]; simpl; [reflexivity|].
  rewrite relative_to_under. simpl. now rewrite IH.
Qed.

(** X15: when the files found are under the root and [--val-count] is
    given, a count below 1 or above the number of files raises [ValueError]
    and nothing is written; a count within these bounds gives a validation
    list of exactly that many names and a training list of all the others. *)
Theorem val_count_is_checked :
  forall w root rels c,
    TrainSplit.list_files w root = map (app root) rels ->
    (forall l, Permutation (TrainSplit.shuffle w l) l) ->
    let a := TrainSplit.mkSplitArgs root (Some c) None in
    ((c < 1 \/ Z.of_nat (length rels) < c)%Z ->
     TrainSplit.main w a = Raise ValueError)
    /\ ((1 <= c <= Z.of_nat (length rels))%Z ->
        exists train val,
          TrainSplit.main w a
          = Ok [ (root ++ [str "vq_train_filelist.txt"], join [NL] train);
                 (root ++ [str "vq_val_filelist.txt"], join [NL] val) ]
          /\ length val = Z.to_nat c
          /\ length train = (length rels - Z.to_nat c)%nat
          /\ Permutation (val ++ train) (map TrainSplit.path_str rels)).
Proof.
  intros w root rels c Hfiles Hperm a. subst a.
  unfold TrainSplit.main. simpl. rewrite Hfiles, relative_names_under. simpl.
  set (names := map TrainSplit.path_str rels).
  assert (Hlen : length (TrainSplit.shuffle w names) = length rels).
  { rewrite (Permutation_length (Hperm names)). unfold names.
    apply length_map. }
  rewrite Hlen. split.
  - intros Hc.
    destruct ((c <? 1) || (Z.of_nat (length rels) <? c))%Z eqn:E;
      [reflexivity|].
    apply orb_false_iff in E as [E1 E2].
    apply Z.ltb_ge in E1, E2. lia.
  - intros Hc.
    destruct ((c <? 1) || (Z.of_nat (length rels) <? c))%Z eqn:E.
    + apply orb_true_iff in E as [E|E]; apply Z.ltb_lt in E; lia.
    + simpl. eexists _, _. split; [reflexivity|].
      unfold TrainSplit.slice_to, TrainSplit.slice_from.
      rewrite Hlen, (slice_index_in_range _ _ Hc).
      rewrite length_firstn, length_skipn, Hlen.
      repeat split; [lia|].
      rewrite firstn_skipn. apply Hperm.
Qed.

Lemma val_count_is_checked_witness :
  TrainSplit.main TrainSplit.split_world
    (TrainSplit.mkSplitArgs [str "data"] (Some 4%Z) None)
  = Raise ValueError.
Proof.
  apply (proj1 (val_count_is_checked TrainSplit.split_world [str "data"]
                  [[str "a.wav"]; [str "s"; str "b.wav"]; [str "c.wav"]] 4%Z
                  eq_refl (fun l => Permutation_sym (Permutation_rev l)))).
  right. reflexivity.
Defined.

(** ** The references of a request *)

Lemma mapM_length {A B} (f : A -> result B) (l : list A) :
  forall ys, mapM f l = Ok ys -> length ys = length l.
Proof.
  induction l as [|x l IH]; intros ys; simpl.
  - now intros [= <-].
  - destruct (f x); simpl; [|discriminate].
    destruct (mapM f l); simpl; [|discriminate].
    intros [= <-]. simpl. f_equal. now apply IH.
Qed.

Lemma mapM_Forall2 {A B} (f : A -> result B) (l : list A) :
  forall ys, mapM f l = Ok ys -> Forall2 (fun x y => f x = Ok y) l ys.
Proof.
  induction l as [|x l IH]; intros ys; simpl.
  - intros [= <-]. constructor.
  - destruct (f x) eqn:E; simpl; [|discriminate].
    destruct (mapM f l); simpl; [|discriminate].
    intros [= <-]. constructor; [exact E|now apply IH].
Qed.

Lemma combine_positions {A B C D} (P : A -> C -> Prop) (Q : B -> D -> Prop)
      (xs : list A) (ys : list C) :
  Forall2 P xs ys ->
  forall (us : list B) (vs : list D),
    Forall2 Q us vs ->
    forall i r,
      nth_error (combine ys vs) i = Some r ->
      exists x u,
        nth_error xs i = Some x /\ nth_error us i = Some u
        /\ P x (fst r) /\ Q u (snd r).
Proof.
  induction 1 as [|x y xs ys Hxy _ IH]; intros us vs HQ i r; simpl.
  - destruct i; discriminate.
  - destruct HQ as [|u v us vs Huv HQ]; [destruct i; discriminate|].
    destruct i as [|i]; simpl.
    + intros [= <-]. now exists x, u.
    + intros Hr. destruct (IH us vs HQ i r Hr) as (x' & u' & H1 & H2 & H3).
      now exists x', u'.
Qed.

(** X16: without [--reference_id] the references are built only when both
    [--reference_audio] and [--reference_text] are given: an absent list
    raises [TypeError], so that the command line with its defaults alone
    fails before the request; the texts and the audios are paired in order,
    the reference at each position being made of the text and of the audio
    at that position, and what one list has more than the other is
    dropped. *)
Theorem references_need_both_lists :
  forall w a,
    PostApi.reference_id a = None ->
    (PostApi.reference_audio a = None ->
     PostApi.references w a = Raise TypeError)
    /\ (forall refs,
           PostApi.references w a = Ok refs ->
           exists audios texts,
             PostApi.reference_audio a = Some audios
             /\ PostApi.reference_text a = Some texts
             /\ length refs = Nat.min (length texts) (length audios)
             /\ Forall (fun r => In (fst r) texts
                                 \/ exists t, In t texts
                                              /\ PostApi.read_utf8 w t = Ok (fst r))
                       refs
             /\ (forall i r,
                    nth_error refs i = Some r ->
                    exists t au,
                      nth_error texts i = Some t
                      /\ nth_error audios i = Some au
                      /\ PostApi.read_ref_text w t = Ok (fst r)
                      /\ PostApi.audio_to_base64 w au = Ok (snd r)))
    /\ (forall audios base64_audios,
           PostApi.reference_audio a = Some audios ->
           mapM (PostApi.audio_to_base64 w) audios = Ok base64_audios ->
           PostApi.reference_text a = None ->
           PostApi.references w a = Raise TypeError).
Proof.
  intros w a Hid. unfold PostApi.references. rewrite Hid. split; [|split].
  - intros ->. reflexivity.
  - intros refs.
    destruct (PostApi.reference_audio a) as [audios|]; simpl; [|discriminate].
    destruct (mapM (PostApi.audio_to_base64 w) audios) as [b64|e] eqn:Eb;
      simpl; [|discriminate].
    destruct (PostApi.reference_text a) as [texts|]; simpl; [|discriminate].
    destruct (mapM (PostApi.read_ref_text w) texts) as [rt|e] eqn:Et;
      simpl; [|discriminate].
    intros [= <-]. exists audios, texts.
    split; [reflexivity|]. split; [reflexivity|]. split; [|split].
    + rewrite length_combine, (mapM_length _ _ _ Eb), (mapM_length _ _ _ Et).
      reflexivity.
    + apply Forall_forall. intros [t b] Hin. apply in_combine_l in Hin.
      simpl. apply mapM_Forall2 in Et.
      clear -Et Hin. induction Et as [|x y l l' Hxy _ IH]; [contradiction|].
      destruct Hin as [<-|Hin].
      * unfold PostApi.read_ref_text in Hxy.
        destruct (PostApi.path_exists w x) as [[|]|]; simpl in Hxy;
          try discriminate.
        -- destruct (PostApi.path_is_file w x) as [[|]|]; simpl in Hxy;
             try discriminate.
           ++ right. exists x. split; [now left|exact Hxy].
           ++ injection Hxy as <-. left. now left.
        -- injection Hxy as <-. left. now left.
      * destruct (IH Hin) as [H|(t' & H & H')].
        -- left. now right.
        -- right. exists t'. split; [now right|exact H'].
    + intros i r Hr.
      apply (combine_positions _ _ _ _ (mapM_Forall2 _ _ _ Et) _ _
               (mapM_Forall2 _ _ _ Eb) i r Hr).
  - intros audios b64 -> Hb ->. simpl. rewrite Hb. reflexivity.
Qed.

Lemma references_need_both_lists_witness :
  PostApi.references PostApi.voice_world (PostApi.mkApiArgs None None None)
  = Raise TypeError.
Proof.
  apply (proj1 (references_need_both_lists PostApi.voice_world
                  (PostApi.mkApiArgs None None None) eq_refl)).
  reflexivity.
Defined.

(** X17: with [--reference_id], a relative name, every audio file of the
    folder [references/<id>] gives one
    reference, in the order of the listing: its audio is the encoding of the
    file, and its text is what [read_ref_text] makes of the path of its
    [.lab] file, that is the content of that file or, when there is no such
    file, the path itself. *)
Theorem references_of_a_folder :
  forall w a idstr refs,
    PostApi.reference_id a = Some idstr ->
    hd_error idstr <> Some SLASH ->
    PostApi.references w a = Ok refs ->
    let folder := of_str (str "references") ++ of_str idstr in
    Forall2 (fun p r =>
               PostApi.audio_to_base64 w (TrainSplit.path_str p) = Ok (snd r)
               /\ exists lab,
                   with_suffix p (Some PostApi.LAB) = Ok lab
                   /\ PostApi.read_ref_text w (TrainSplit.path_str lab)
                      = Ok (fst r)
                   /\ (PostApi.path_exists w (TrainSplit.path_str lab) = Ok false ->
                       fst r = TrainSplit.path_str lab))
            (PostApi.list_audio w folder) refs.
Proof.
  intros w a idstr refs Hid _. unfold PostApi.references. rewrite Hid.
  destruct (PostApi.mkdir w _); simpl; [|discriminate].
  destruct (mapM (fun p => PostApi.audio_to_base64 w (TrainSplit.path_str p)) _)
    as [b64|e] eqn:Eb; simpl; [|discriminate].
  destruct (mapM (PostApi.lab_text w) _) as [rt|e] eqn:Et; simpl;
    [|discriminate].
  intros [= <-]. apply mapM_Forall2 in Eb, Et.
  revert b64 Eb.
  induction Et as [|p t ps ts Hpt _ IH]; intros b64 Eb;
    inversion Eb as [|? b ? bs Hb Hbs]; subst; cbn [combine]; constructor.
  - split; [exact Hb|]. unfold PostApi.lab_text in Hpt.
    destruct (with_suffix p (Some PostApi.LAB)) as [lab|e] eqn:El;
      cbn [bind] in Hpt; [|discriminate].
    exists lab. split; [exact El|]. split; [exact Hpt|].
    intros Hex. unfold PostApi.read_ref_text in Hpt. rewrite Hex in Hpt.
    cbn [bind fst] in *. congruence.
  - now apply IH.
Qed.

Lemma references_of_a_folder_witness :
  PostApi.references PostApi.voice_world
    (PostApi.mkApiArgs (Some (str "voice")) None None)
  = Ok [ (str "hello", Some (str "UklGRg=="));
         (str "references/voice/b.lab", Some (str "UklGRg==")) ]
  /\ length (PostApi.list_audio PostApi.voice_world
               [str "references"; str "voice"]) = 2%nat.
Proof.
  split; [reflexivity|].
  apply (Forall2_length
           (references_of_a_folder PostApi.voice_world
              (PostApi.mkApiArgs (Some (str "voice")) None None)
              (str "voice") _ eq_refl ltac:(discriminate) eq_refl)).
Defined.

(** ** The text of a sentence *)

(** X18: the text of a sentence is the cleaned text of its member: in
    manifest mode the text of the line, as it is; in tree mode the content of
    the sidecar file, stripped before it is cleaned. *)
Theorem sentence_text_source :
  forall w extension languages m l s,
    process w extension languages m = Ok (l, Append s) ->
    match member_text m with
    | Some t => text s = sanitize t
    | None =>
        exists txt_file content,
          with_suffix (member_file m) extension = Ok txt_file
          /\ exists_ w txt_file = true
          /\ read_text w txt_file = Ok content
          /\ text s = sanitize (strip content)
    end.
Proof.
  intros w extension languages m l s Hp.
  apply member_outcome_complete in Hp.
  inversion Hp as [| | | |np t ph v s' Hnp Hex Ht Hg Hl Hs]; subst.
  apply build_sentence_fields in Hs as [Htext _].
  unfold resolve_text in Ht.
  destruct (member_text m) as [t0|].
  - now injection Ht as ->.
  - destruct (with_suffix (member_file m) extension) as [txt|e]; simpl in Ht;
      [|discriminate].
    destruct (exists_ w txt) eqn:Etxt; simpl in Ht; [|discriminate].
    destruct (read_text w txt) as [content|e] eqn:Er; simpl in Ht;
      [|discriminate].
    injection Ht as <-. now exists txt, content.
Qed.

Lemma sentence_text_source_witness :
  text (mkSentence (str "Hello world")
                   (map (fun c => [c]) (str "Hello world"))
                   [mkSemantics [1; 2; 3]%Z; mkSemantics [4; 5; 6]%Z])
  = sanitize (str "Hello {noise} world").
Proof.
  apply (sentence_text_source (manifest_world codes) None [str "ja"]
           (MTuple [str "wavs"; str "c.wav"]
                   (Some (str "Hello {noise} world")) [str "ja"])
           [str "ja"] _ eq_refl).
Defined.

(** ** The pool *)

(** A number of workers below 1 ends [main] with a [ValueError] once the
    output is opened, whatever the source of the tasks. *)
Lemma pool_needs_a_worker w a :
  open_wb w (output a) = Ok tt -> (num_workers a < 1)%Z ->
  results w a = Raise ValueError.
Proof.
  intros Hopen Hn. unfold results. rewrite Hopen. simpl.
  now rewrite (proj2 (Z.ltb_lt _ _) Hn).
Qed.
